(** * Delegates: handles, bindings, unicast and multicast delegates

    A shallow embedding of [Delegates] (DelegateInstance.h / DelegateInstance.cpp).

    - [FDelegateHandle] is the [uint64_t DelegateID]; the process-wide atomic
      counter [GDelegateNextID] is a field of the [World], and
      [fetch_add(1)] wraps modulo [2^64].
    - The four instance classes are the constructors of [DelegateInstance];
      pointers, member-function pointers and [std::function] targets are
      integers with [0] standing for [nullptr] / the empty [std::function].
    - A [weak_ptr] is the identity of its control block; the objects that
      have been destroyed so far are the set [destroyed] of the [World].
    - [std::shared_ptr<InstanceBase> Instance] is an [option DelegateInstance];
      instance objects are immutable after construction, so the copy of the
      pointer taken by the broadcast snapshot is the same value, and what the
      snapshot shares with the live entry is the state of the target, which
      lives in the [World].
    - The bound callables are arbitrary code that may call back into the
      delegate.  A callable is given by a table [handler]: looking at its
      arguments and at the world it is entered in, it returns the operations
      it performs and its result.  [invoke] runs these with a bound [fuel] on
      the nesting of calls.  The operations are those of the public interface
      of the multicast delegate, a handle drawn by some other delegate of the
      process, and the destruction of an object.
    - [ActDestroy obj] is the moment the last owner of [obj] lets go of it.
      A weak instance holds the result of [Weak.lock()] while its target runs,
      so in the source the object of a running weak target can only go at the
      return of that target; the model lets it go at any point, which only
      adds runs.  A raw instance is never checked: its pointer is safe as long
      as it is not null.
    - [trace] is a ghost field: the calls made to targets, oldest first, each
      with the instance that made it and the arguments passed.  [generated]
      is a ghost field too: the number of handles drawn so far.
    - [TDelegate::AddLambda] names the instance class with its template
      arguments in another order than the class declares them; the model
      takes the binding it means, a [TLambdaDelegateInstance] around the given
      callable.
    - Every function on the way to a target takes [ArgsType... Args] by value
      and passes them on with [std::forward<ArgsType>(Args)...].  The callee
      gets the values; what is left behind in the parameters of the caller is
      [moved_from] of them: the same values for a type that is copied (an
      [int]) or is a reference, the moved-from state for a type with a move
      constructor (the empty vector for a [std::vector]).  This matters in
      the one place where parameters are passed on more than once, the loop
      of [Broadcast].  An argument of reference type is the reference; the
      state of the object behind it is not part of the model. *)

From Stdlib Require Import ZArith Lia.
From stdpp Require Import base tactics option list sorting gmap.

Local Open Scope Z_scope.

(** ** Handle *)

Definition UINT64_MODULUS : Z := 18446744073709551616.

Definition FDelegateHandle : Type := Z.

(** [FDelegateHandle()] : the default-constructed, invalid handle. *)
Definition FDelegateHandle_default : FDelegateHandle := 0.

Definition IsValid (h : FDelegateHandle) : bool := negb (h =? 0).

(** ** Instances *)

Inductive DelegateInstance : Type :=
| TStaticDelegateInstance (Func : Z) (Handle : FDelegateHandle)
| TRawDelegateInstance (ClassPtr : Z) (Method : Z) (Handle : FDelegateHandle)
| TWeakDelegateInstance (Weak : Z) (Method : Z) (Handle : FDelegateHandle)
| TLambdaDelegateInstance (Fn : Z) (Handle : FDelegateHandle).

(** What an instance finally calls: [Func(args)], [(obj->*Method)(args)]
    or [Fn(args)]. *)
Inductive Callee : Type :=
| CallFunc (Func : Z)
| CallMethod (Object : Z) (Method : Z)
| CallClosure (Fn : Z).

Definition callee_of (i : DelegateInstance) : Callee :=
  match i with
  | TStaticDelegateInstance Func _ => CallFunc Func
  | TRawDelegateInstance ClassPtr Method _ => CallMethod ClassPtr Method
  | TWeakDelegateInstance Weak Method _ => CallMethod Weak Method
  | TLambdaDelegateInstance Fn _ => CallClosure Fn
  end.

Definition Instance_GetHandle (i : DelegateInstance) : FDelegateHandle :=
  match i with
  | TStaticDelegateInstance _ Handle => Handle
  | TRawDelegateInstance _ _ Handle => Handle
  | TWeakDelegateInstance _ _ Handle => Handle
  | TLambdaDelegateInstance _ Handle => Handle
  end.

(** ** Unicast delegate and multicast entries *)

(** [TDelegate] has the single field [std::shared_ptr<InstanceBase> Instance]. *)
Definition TDelegate : Type := option DelegateInstance.

Definition TDelegate_Unbind (d : TDelegate) : TDelegate := None.

Definition TDelegate_GetHandle (d : TDelegate) : FDelegateHandle :=
  match d with
  | Some Instance => Instance_GetHandle Instance
  | None => FDelegateHandle_default
  end.

Record FEntry : Type := mkEntry {
  Handle : FDelegateHandle;
  Delegate : TDelegate;
  Owner : Z
}.

(** ** Two standard algorithms on [std::vector] *)

(** [std::find_if]: the position of the first element satisfying [p], or
    the length of the vector ([end()]) when there is none. *)
Fixpoint find_if {A : Type} (p : A → bool) (l : list A) : nat :=
  match l with
  | [] => 0%nat
  | x :: l' => if p x then 0%nat else S (find_if p l')
  end.

(** [v.erase(it)] for one position. *)
Definition erase {A : Type} (Iter : nat) (l : list A) : list A :=
  take Iter l ++ drop (S Iter) l.

(** [v.erase(std::remove_if(v.begin(), v.end(), p), v.end())]: the elements
    for which [p] fails are moved to the front in order, the rest is cut. *)
Fixpoint erase_remove_if {A : Type} (p : A → bool) (l : list A) : list A :=
  match l with
  | [] => []
  | x :: l' => if p x then erase_remove_if p l' else x :: erase_remove_if p l'
  end.

(** ** Results of running code *)

Inductive Outcome (A : Type) : Type :=
| Done (a : A)
| AssertFail
| OutOfFuel.
Arguments Done {A} a.
Arguments AssertFail {A}.
Arguments OutOfFuel {A}.

#[global] Instance Outcome_fmap : FMap Outcome := λ A B f m,
  match m with
  | Done a => Done (f a)
  | AssertFail => AssertFail
  | OutOfFuel => OutOfFuel
  end.

#[global] Instance Outcome_bind : MBind Outcome := λ A B k m,
  match m with
  | Done a => k a
  | AssertFail => AssertFail
  | OutOfFuel => OutOfFuel
  end.

(** From [m ≫= k = Done b]: [m] is some [Done a], and [k a = Done b]. *)
Ltac bind_inv H :=
  match type of H with
  | mbind _ ?m = Done _ =>
      let a := fresh "a" in
      let H1 := fresh H "_1" in
      revert H; destruct m as [a| |] eqn:H1; intros H;
      [ cbn [mbind Outcome_bind] in H | discriminate H | discriminate H ]
  end.

(** Case analysis on membership in an explicit list. *)
Ltac each_entry H :=
  cbv in H; repeat (apply elem_of_cons in H as [-> | H]);
  [.. | by apply elem_of_nil in H].

Section Delegates.

Variables Args Ret : Type.

(** [RetType{}], the value-initialised result. *)
Variable RetDefault : Ret.

(** What [std::forward<ArgsType>(Args)...] leaves in [Args] once the by-value
    parameters of a callee have been initialised from it. *)
Variable moved_from : Args → Args.

(** The parameters after they have been passed on [n] times. *)
Fixpoint forwarded (n : nat) (args : Args) : Args :=
  match n with
  | O => args
  | S n' => forwarded n' (moved_from args)
  end.

(** ** The world *)

Record World : Type := mkWorld {
  GDelegateNextID : Z;
  generated : Z;
  destroyed : gset Z;
  Entries : list FEntry;
  trace : list (DelegateInstance * Args)
}.

Definition set_Entries (l : list FEntry) (w : World) : World :=
  mkWorld (GDelegateNextID w) (generated w) (destroyed w) l (trace w).

(** The call of a target is recorded at the end of [trace]. *)
Definition record_call (i : DelegateInstance) (args : Args) (w : World) : World :=
  mkWorld (GDelegateNextID w) (generated w) (destroyed w) (Entries w)
          (trace w ++ [(i, args)]).

Definition destroy (obj : Z) (w : World) : World :=
  mkWorld (GDelegateNextID w) (generated w) ({[obj]} ∪ destroyed w) (Entries w)
          (trace w).

(** [GDelegateNextID.fetch_add(1)]: returns the old value; [generated]
    counts the calls. *)
Definition GenerateNewID (w : World) : FDelegateHandle * World :=
  (GDelegateNextID w,
   mkWorld ((GDelegateNextID w + 1) mod UINT64_MODULUS) (generated w + 1)
           (destroyed w) (Entries w) (trace w)).

(** ** Safety predicates *)

(** [Weak.expired()]: an empty [weak_ptr] or one whose object is gone. *)
Definition expired (w : World) (Weak : Z) : bool :=
  (Weak =? 0) || bool_decide (Weak ∈ destroyed w).

Definition IsSafeToExecute (w : World) (i : DelegateInstance) : bool :=
  match i with
  | TStaticDelegateInstance Func _ => negb (Func =? 0)
  | TRawDelegateInstance ClassPtr Method _ =>
      negb (ClassPtr =? 0) && negb (Method =? 0)
  | TWeakDelegateInstance Weak Method _ =>
      negb (expired w Weak) && negb (Method =? 0)
  | TLambdaDelegateInstance Fn _ => negb (Fn =? 0)
  end.

Definition IsCompactable (w : World) (i : DelegateInstance) : bool :=
  negb (IsSafeToExecute w i).

Definition TDelegate_IsBound (w : World) (d : TDelegate) : bool :=
  match d with
  | Some Instance => IsSafeToExecute w Instance
  | None => false
  end.

(** ** Binding *)

Definition TDelegate_BindStatic (Func : Z) (w : World) : TDelegate * World :=
  let '(h, w') := GenerateNewID w in (Some (TStaticDelegateInstance Func h), w').

Definition TDelegate_AddRaw (InObjPtr InMethod : Z) (w : World) : TDelegate * World :=
  let '(h, w') := GenerateNewID w in
  (Some (TRawDelegateInstance InObjPtr InMethod h), w').

Definition TDelegate_AddWeak (InWeak InMethod : Z) (w : World) : TDelegate * World :=
  let '(h, w') := GenerateNewID w in
  (Some (TWeakDelegateInstance InWeak InMethod h), w').

Definition TDelegate_AddLambda (InLambdaFunc : Z) (w : World) : TDelegate * World :=
  let '(h, w') := GenerateNewID w in
  (Some (TLambdaDelegateInstance InLambdaFunc h), w').

(** ** Multicast delegate: registration and removal *)

Definition IsBound (w : World) : bool :=
  match Entries w with [] => false | _ => true end.

Definition Clear (w : World) : World := set_Entries [] w.

Definition AddInternal (InDelegate : TDelegate) (InOwner : Z) (w : World)
  : FDelegateHandle * World :=
  let h0 := TDelegate_GetHandle InDelegate in
  let '(h, w1) := if negb (IsValid h0) then GenerateNewID w else (h0, w) in
  (h, set_Entries (Entries w1 ++ [mkEntry h InDelegate InOwner]) w1).

Definition AddStatic (Fn : Z) (w : World) : FDelegateHandle * World :=
  let '(D, w1) := TDelegate_BindStatic Fn w in AddInternal D 0 w1.

Definition AddRaw (InObjPtr InMethod : Z) (w : World) : FDelegateHandle * World :=
  let '(D, w1) := TDelegate_AddRaw InObjPtr InMethod w in AddInternal D InObjPtr w1.

Definition AddWeak (InWeak InMethod : Z) (w : World) : FDelegateHandle * World :=
  let '(D, w1) := TDelegate_AddWeak InWeak InMethod w in AddInternal D 0 w1.

Definition AddLambda (InFunc : Z) (w : World) : FDelegateHandle * World :=
  let '(D, w1) := TDelegate_AddLambda InFunc w in AddInternal D 0 w1.

Definition Remove (InHandle : FDelegateHandle) (w : World) : World :=
  let Iter := find_if (λ E, Handle E =? InHandle) (Entries w) in
  if decide (Iter = length (Entries w)) then w
  else set_Entries (erase Iter (Entries w)) w.

Definition RemoveAll (InOwner : Z) (w : World) : World :=
  if InOwner =? 0 then w
  else set_Entries (erase_remove_if (λ E, Owner E =? InOwner) (Entries w)) w.

(** The compaction at the end of [Broadcast]. *)
Definition compact (w : World) : World :=
  set_Entries
    (erase_remove_if (λ Entry, negb (TDelegate_IsBound w (Delegate Entry)))
                     (Entries w)) w.

(** ** Handlers *)

(** What a bound callable may do while it runs. *)
Inductive Action : Type :=
| ActAddStatic (Fn : Z)
| ActAddRaw (InObjPtr InMethod : Z)
| ActAddWeak (InWeak InMethod : Z)
| ActAddLambda (InFunc : Z)
| ActRemove (InHandle : FDelegateHandle)
| ActRemoveAll (InOwner : Z)
| ActClear
| ActBindElsewhere
| ActDestroy (obj : Z)
| ActBroadcast (args : Args).

Variable handler : Callee → Args → World → list Action * Ret.

Definition is_broadcast (a : Action) : bool :=
  match a with ActBroadcast _ => true | _ => false end.

(** Every operation except a nested [Broadcast] is a step on the world. *)
Definition prim (a : Action) (w : World) : World :=
  match a with
  | ActAddStatic Fn => snd (AddStatic Fn w)
  | ActAddRaw InObjPtr InMethod => snd (AddRaw InObjPtr InMethod w)
  | ActAddWeak InWeak InMethod => snd (AddWeak InWeak InMethod w)
  | ActAddLambda InFunc => snd (AddLambda InFunc w)
  | ActRemove InHandle => Remove InHandle w
  | ActRemoveAll InOwner => RemoveAll InOwner w
  | ActClear => Clear w
  | ActBindElsewhere => snd (GenerateNewID w)
  | ActDestroy obj => destroy obj w
  | ActBroadcast _ => w
  end.

(** ** Execution *)

Section Run.

(** The code behind a target, one level down. *)
Variable call : Callee → Args → World → Outcome (World * Ret).

Definition call_target (i : DelegateInstance) (args : Args) (w : World)
  : Outcome (World * Ret) :=
  call (callee_of i) args (record_call i args w).

(** [Execute]: [assert(IsSafeToExecute())], then the call. *)
Definition Execute (i : DelegateInstance) (args : Args) (w : World)
  : Outcome (World * Ret) :=
  if IsSafeToExecute w i then call_target i args w else AssertFail.

(** [ExecuteIfSafe]: the static and raw instances test
    [IDelegateInstance::IsCompactable()], the weak and lambda ones
    [!IsSafeToExecute()]; the static instance then calls [Func] itself, the
    others go through [Execute]. *)
Definition ExecuteIfSafe (i : DelegateInstance) (args : Args) (w : World)
  : Outcome (World * Ret) :=
  match i with
  | TStaticDelegateInstance _ _ =>
      if IsCompactable w i then Done (w, RetDefault) else call_target i args w
  | TRawDelegateInstance _ _ _ =>
      if IsCompactable w i then Done (w, RetDefault) else Execute i args w
  | TWeakDelegateInstance _ _ _ =>
      if negb (IsSafeToExecute w i) then Done (w, RetDefault) else Execute i args w
  | TLambdaDelegateInstance _ _ =>
      if negb (IsSafeToExecute w i) then Done (w, RetDefault) else Execute i args w
  end.

(** [TDelegate::Execute]: [assert(IsBound())], then [Instance->Execute]. *)
Definition TDelegate_Execute (d : TDelegate) (args : Args) (w : World)
  : Outcome (World * Ret) :=
  if TDelegate_IsBound w d then
    match d with
    | Some Instance => Execute Instance args w
    | None => AssertFail
    end
  else AssertFail.

Definition TDelegate_ExecuteIfBound (d : TDelegate) (args : Args) (w : World)
  : Outcome (World * Ret) :=
  if negb (TDelegate_IsBound w d) then Done (w, RetDefault)
  else
    match d with
    | Some Instance => Execute Instance args w
    | None => AssertFail
    end.

(** The loop of [Broadcast] over the snapshot.  Each turn passes the
    parameters [Args] of [Broadcast] on to [ExecuteIfBound], bound or not, so
    the next turn finds [moved_from] of them. *)
Fixpoint dispatch (Snapshot : list FEntry) (args : Args) (w : World)
  : Outcome World :=
  match Snapshot with
  | [] => Done w
  | Entry :: rest =>
      r ← TDelegate_ExecuteIfBound (Delegate Entry) args w ;
      dispatch rest (moved_from args) (fst r)
  end.

Definition Broadcast (args : Args) (w : World) : Outcome World :=
  match Entries w with
  | [] => Done w
  | _ =>
      let Snapshot := Entries w in
      w' ← dispatch Snapshot args w ;
      Done (compact w')
  end.

Definition do_action (a : Action) (w : World) : Outcome World :=
  match a with
  | ActBroadcast args => Broadcast args w
  | _ => Done (prim a w)
  end.

Fixpoint do_actions (acts : list Action) (w : World) : Outcome World :=
  match acts with
  | [] => Done w
  | a :: rest => w' ← do_action a w ; do_actions rest w'
  end.

End Run.

(** Running a target: its handler decides, from the arguments and the world
    it is entered in, what it does; nested calls get one unit of fuel less. *)
Fixpoint invoke (fuel : nat) (c : Callee) (args : Args) (w : World)
  : Outcome (World * Ret) :=
  match fuel with
  | O => OutOfFuel
  | S fuel' =>
      let '(acts, r) := handler c args w in
      w' ← do_actions (invoke fuel') acts w ;
      Done (w', r)
  end.

(** ** Vocabulary of the properties *)

(** The process has just started and the delegate is new. *)
Definition process_start (w : World) : Prop :=
  GDelegateNextID w = 1 ∧ generated w = 0 ∧ Entries w = [].

(** The states a multicast delegate can be in: any sequence of its public
    operations (and of handle draws by other delegates), run from the start of
    the process. *)
Definition reachable (w : World) : Prop :=
  ∃ w0 fuel acts,
    process_start w0 ∧ do_actions (invoke fuel) acts w0 = Done w.

Definition handles (w : World) : list FDelegateHandle :=
  Handle <$> Entries w.

(** The counter and the stored handles agree with the number of handles
    drawn so far. *)
Definition handles_fresh (w : World) : Prop :=
  0 ≤ generated w ∧
  GDelegateNextID w = (1 + generated w) mod UINT64_MODULUS ∧
  (generated w ≤ UINT64_MODULUS - 1 →
   NoDup (handles w) ∧ ∀ h, h ∈ handles w → 1 ≤ h ≤ generated w).

Definition is_destroy (a : Action) : bool :=
  match a with ActDestroy _ => true | _ => false end.

(** A handler step that neither destroys an object nor broadcasts again. *)
Definition quiet (a : Action) : Prop :=
  is_broadcast a = false ∧ is_destroy a = false.

(** The object whose lifetime the safety of an instance depends on. *)
Definition weak_target (i : DelegateInstance) : option Z :=
  match i with
  | TWeakDelegateInstance Weak _ _ => Some Weak
  | _ => None
  end.

(** No handler ever destroys [obj]. *)
Definition never_destroyed (obj : Z) : Prop :=
  ∀ c args w, ActDestroy obj ∉ (handler c args w).1.

(** No handler ever broadcasts. *)
Definition never_rebroadcast : Prop :=
  ∀ c args w, Forall (λ a, is_broadcast a = false) (handler c args w).1.

(** The calls of one pass: one per entry, in order. *)
Definition called_in_order (l : list FEntry)
    (evs : list (DelegateInstance * Args)) : Prop :=
  Forall2 (λ E ev, Delegate E = Some ev.1) l evs.

(** The calls of one pass: one per entry, in order, with the same [args]. *)
Definition one_call_each (args : Args) (l : list FEntry)
    (evs : list (DelegateInstance * Args)) : Prop :=
  Forall2 (λ E ev, Delegate E = Some ev.1 ∧ ev.2 = args) l evs.

(** The calls of one pass: one per entry, in order, each with the parameters
    as its turn finds them. *)
Fixpoint one_call_per_turn (args : Args) (l : list FEntry)
    (evs : list (DelegateInstance * Args)) : Prop :=
  match l, evs with
  | [], [] => True
  | E :: l', ev :: evs' =>
      Delegate E = Some ev.1 ∧ ev.2 = args ∧
      one_call_per_turn (moved_from args) l' evs'
  | _, _ => False
  end.

(** Between two worlds no object came back to life, and every call made
    went to an instance that was already safe in the first. *)
Definition grows_safely (w w' : World) : Prop :=
  destroyed w ⊆ destroyed w' ∧
  ∃ evs, trace w' = trace w ++ evs ∧
         ∀ ev, ev ∈ evs → IsSafeToExecute w ev.1 = true.

(** [obj] was not destroyed between two worlds. *)
Definition keeps_alive (obj : Z) (w w' : World) : Prop :=
  obj ∈ destroyed w' → obj ∈ destroyed w.

(** Freshness of the handles is kept between two worlds. *)
Definition stays_fresh (w w' : World) : Prop :=
  handles_fresh w → handles_fresh w'.

(** No entry is recorded with the owner [InOwner]. *)
Definition unregistered (InOwner : Z) (w : World) : Prop :=
  ∀ E, E ∈ Entries w → Owner E ≠ InOwner.

Definition keeps_unregistered (InOwner : Z) (w w' : World) : Prop :=
  unregistered InOwner w → unregistered InOwner w'.

(** The step registers an entry with the owner [InOwner]: only [AddRaw]
    records an owner. *)
Definition registers (InOwner : Z) (a : Action) : bool :=
  match a with
  | ActAddRaw InObjPtr _ => InObjPtr =? InOwner
  | _ => false
  end.

(** ** Registration and binding, by kind of target *)

(** What the four [Bind]/[Add] operations are given. *)
Inductive Target : Type :=
| ToStatic (Func : Z)
| ToRaw (InObjPtr : Z) (InMethod : Z)
| ToWeak (InWeak : Z) (InMethod : Z)
| ToLambda (InFunc : Z).

(** The instance each of them constructs once its handle is drawn. *)
Definition instance_of (t : Target) (h : FDelegateHandle) : DelegateInstance :=
  match t with
  | ToStatic Func => TStaticDelegateInstance Func h
  | ToRaw InObjPtr InMethod => TRawDelegateInstance InObjPtr InMethod h
  | ToWeak InWeak InMethod => TWeakDelegateInstance InWeak InMethod h
  | ToLambda InFunc => TLambdaDelegateInstance InFunc h
  end.

(** The owner that the multicast delegate records: the object of a raw
    binding, [nullptr] for the others. *)
Definition owner_of (t : Target) : Z :=
  match t with
  | ToRaw InObjPtr _ => InObjPtr
  | _ => 0
  end.

(** [BindStatic], [AddRaw], [AddWeak] or [AddLambda] of [TDelegate]. *)
Definition TDelegate_Bind (t : Target) (w : World) : TDelegate * World :=
  match t with
  | ToStatic Func => TDelegate_BindStatic Func w
  | ToRaw InObjPtr InMethod => TDelegate_AddRaw InObjPtr InMethod w
  | ToWeak InWeak InMethod => TDelegate_AddWeak InWeak InMethod w
  | ToLambda InFunc => TDelegate_AddLambda InFunc w
  end.

(** [AddStatic], [AddRaw], [AddWeak] or [AddLambda] of [TMulticastDelegate]. *)
Definition Add (t : Target) (w : World) : FDelegateHandle * World :=
  match t with
  | ToStatic Func => AddStatic Func w
  | ToRaw InObjPtr InMethod => AddRaw InObjPtr InMethod w
  | ToWeak InWeak InMethod => AddWeak InWeak InMethod w
  | ToLambda InFunc => AddLambda InFunc w
  end.

(** ** More vocabulary *)

(** The entries of a sequence that are bound in a world, in their order. *)
Definition bound_entries (w : World) (l : list FEntry) : list FEntry :=
  filter (λ E, TDelegate_IsBound w (Delegate E) = true) l.

(** The step takes entries out of the delegate. *)
Definition removes (a : Action) : bool :=
  match a with
  | ActRemove _ | ActRemoveAll _ | ActClear => true
  | _ => false
  end.

(** The step registers an entry. *)
Definition adds (a : Action) : bool :=
  match a with
  | ActAddStatic _ | ActAddRaw _ _ | ActAddWeak _ _ | ActAddLambda _ => true
  | _ => false
  end.

(** The step is a handle drawn by another delegate of the process. *)
Definition draws_elsewhere (a : Action) : bool :=
  match a with ActBindElsewhere => true | _ => false end.

(** The entry that a registration of [t] stores under the handle [h]. *)
Definition entry_of (t : Target) (h : FDelegateHandle) : FEntry :=
  mkEntry h (Some (instance_of t h)) (owner_of t).

(** The [Add] operation for a target, as a step of a handler. *)
Definition add_action (t : Target) : Action :=
  match t with
  | ToStatic Func => ActAddStatic Func
  | ToRaw InObjPtr InMethod => ActAddRaw InObjPtr InMethod
  | ToWeak InWeak InMethod => ActAddWeak InWeak InMethod
  | ToLambda InFunc => ActAddLambda InFunc
  end.

(** Between two worlds no object came back to life, the count of the
    handles drawn did not go down, and the entry [E] stayed in the delegate
    unless its target is gone. *)
Definition keeps_entry (E : FEntry) (w w' : World) : Prop :=
  destroyed w ⊆ destroyed w' ∧ generated w ≤ generated w' ∧
  (E ∈ Entries w → TDelegate_IsBound w' (Delegate E) = true → E ∈ Entries w').

(** [added] holds one registered entry for each of the handles drawn between
    two worlds, in the order of the draws. *)
Definition registered_since (w w' : World) (added : list FEntry) : Prop :=
  Handle <$> added = seqZ (generated w + 1) (generated w' - generated w) ∧
  ∀ E, E ∈ added → ∃ t, E = entry_of t (Handle E).

(** Between two worlds no object came back to life, every handle drawn was
    drawn by a registration, and the bound entries of the second are those of
    the first followed by the entries registered since. *)
Definition keeps_bound_entries (w w' : World) : Prop :=
  handles_fresh w →
  handles_fresh w' ∧
  destroyed w ⊆ destroyed w' ∧
  generated w ≤ generated w' ∧
  (generated w' ≤ UINT64_MODULUS - 1 →
   ∃ added,
     registered_since w w' added ∧
     bound_entries w' (Entries w') = bound_entries w' (Entries w ++ added)).

(** The same with no entry registered since. *)
Definition same_bound_entries (w w' : World) : Prop :=
  destroyed w ⊆ destroyed w' ∧
  bound_entries w' (Entries w') = bound_entries w' (Entries w).

(** The stored handles grow along the sequence, and each entry holds an
    instance that carries the handle of the entry. *)
Definition handles_ordered (w : World) : Prop :=
  generated w ≤ UINT64_MODULUS - 1 →
  StronglySorted Z.lt (handles w) ∧
  ∀ E, E ∈ Entries w →
    ∃ i, Delegate E = Some i ∧ Instance_GetHandle i = Handle E.

Definition stays_ordered (w w' : World) : Prop :=
  handles_fresh w ∧ handles_ordered w → handles_fresh w' ∧ handles_ordered w'.

(** [std::vector::erase] of the first element satisfying [p], if any: what
    [Remove] does to the sequence, written by recursion. *)
Fixpoint erase_first {A : Type} (p : A → bool) (l : list A) : list A :=
  match l with
  | [] => []
  | x :: l' => if p x then l' else x :: erase_first p l'
  end.

End Delegates.

Arguments mkWorld {Args}.
Arguments GDelegateNextID {Args}.
Arguments generated {Args}.
Arguments destroyed {Args}.
Arguments Entries {Args}.
Arguments trace {Args}.
Arguments set_Entries {Args}.
Arguments record_call {Args}.
Arguments destroy {Args}.
Arguments GenerateNewID {Args}.
Arguments expired {Args}.
Arguments IsSafeToExecute {Args}.
Arguments IsCompactable {Args}.
Arguments TDelegate_IsBound {Args}.
Arguments TDelegate_BindStatic {Args}.
Arguments TDelegate_AddRaw {Args}.
Arguments TDelegate_AddWeak {Args}.
Arguments TDelegate_AddLambda {Args}.
Arguments IsBound {Args}.
Arguments Clear {Args}.
Arguments forwarded {Args}.
Arguments AddInternal {Args}.
Arguments AddStatic {Args}.
Arguments AddRaw {Args}.
Arguments AddWeak {Args}.
Arguments AddLambda {Args}.
Arguments Remove {Args}.
Arguments RemoveAll {Args}.
Arguments compact {Args}.
Arguments ActAddStatic {Args}.
Arguments ActAddRaw {Args}.
Arguments ActAddWeak {Args}.
Arguments ActAddLambda {Args}.
Arguments ActRemove {Args}.
Arguments ActRemoveAll {Args}.
Arguments ActClear {Args}.
Arguments ActBindElsewhere {Args}.
Arguments ActDestroy {Args}.
Arguments ActBroadcast {Args}.
Arguments is_broadcast {Args}.
Arguments is_destroy {Args}.
Arguments quiet {Args}.
Arguments prim {Args}.
Arguments call_target {Args Ret}.
Arguments Execute {Args Ret}.
Arguments ExecuteIfSafe {Args Ret}.
Arguments TDelegate_Execute {Args Ret}.
Arguments TDelegate_ExecuteIfBound {Args Ret}.
Arguments dispatch {Args Ret}.
Arguments Broadcast {Args Ret}.
Arguments do_action {Args Ret}.
Arguments do_actions {Args Ret}.
Arguments invoke {Args Ret}.
Arguments process_start {Args}.
Arguments reachable {Args Ret}.
Arguments handles {Args}.
Arguments handles_fresh {Args}.
Arguments never_destroyed {Args Ret}.
Arguments never_rebroadcast {Args Ret}.
Arguments called_in_order {Args}.
Arguments one_call_each {Args}.
Arguments one_call_per_turn {Args}.
Arguments grows_safely {Args}.
Arguments keeps_alive {Args}.
Arguments stays_fresh {Args}.
Arguments unregistered {Args}.
Arguments registers {Args}.
Arguments keeps_unregistered {Args}.
Arguments TDelegate_Bind {Args}.
Arguments Add {Args}.
Arguments bound_entries {Args}.
Arguments removes {Args}.
Arguments adds {Args}.
Arguments draws_elsewhere {Args}.
Arguments add_action {Args}.
Arguments keeps_entry {Args}.
Arguments registered_since {Args}.
Arguments keeps_bound_entries {Args}.
Arguments same_bound_entries {Args}.
Arguments handles_ordered {Args}.
Arguments stays_ordered {Args}.

(** ** Sample programs

    The signature of the demo, [void(int, int, int)]. *)

Definition DemoArgs : Type := list Z.

(** Three [int]s are copied when they are passed on. *)
Definition copied (args : DemoArgs) : DemoArgs := args.

(** The signature [void(std::vector<int>)]: the move constructor of
    [std::vector] leaves its source empty. *)
Definition moved_vector (args : list Z) : list Z := [].

(** The world when the process starts: the counter is [1]. *)
Definition start : World DemoArgs := mkWorld 1 0 ∅ [] [].

(** One draw of a handle, by any delegate of the process. *)
Definition draw (w : World DemoArgs) : World DemoArgs := (GenerateNewID w).2.

(** Handlers that do nothing but return. *)
Definition idle : Callee → DemoArgs → World DemoArgs → list (Action DemoArgs) * unit :=
  λ _ _ _, ([], tt).

(** [Func 1] destroys object [5]: the owner of the last [shared_ptr] to it
    lets it go when notified. *)
Definition killer : Callee → DemoArgs → World DemoArgs → list (Action DemoArgs) * unit :=
  λ c _ _,
    match c with
    | CallFunc 1 => ([ActDestroy 5], tt)
    | _ => ([], tt)
    end.

(** [Func 1] broadcasts again as long as fewer than two calls were made. *)
Definition rebroadcaster : Callee → DemoArgs → World DemoArgs → list (Action DemoArgs) * unit :=
  λ c args w,
    match c with
    | CallFunc 1 =>
        (if (length (trace w) <? 2)%nat then [ActBroadcast args] else [], tt)
    | _ => ([], tt)
    end.

(** Object [7] has two methods registered; method [1] unregisters the whole
    object, [RemoveAll(this)]. *)
Definition unsubscriber : Callee → DemoArgs → World DemoArgs → list (Action DemoArgs) * unit :=
  λ c _ _,
    match c with
    | CallMethod 7 1 => ([ActRemoveAll 7], tt)
    | _ => ([], tt)
    end.

(** [Func 1] removes the entry with handle [2], the one registered after it. *)
Definition remover : Callee → DemoArgs → World DemoArgs → list (Action DemoArgs) * unit :=
  λ c _ _,
    match c with
    | CallFunc 1 => ([ActRemove 2], tt)
    | _ => ([], tt)
    end.

(** A static function and a weak binding to object [5]. *)
Definition static_then_weak : World DemoArgs :=
  (AddWeak 5 1 (AddStatic 1 start).2).2.

(** Two raw bindings of object [7]. *)
Definition two_methods : World DemoArgs :=
  (AddRaw 7 2 (AddRaw 7 1 start).2).2.

(** A static function and a raw binding of object [7]. *)
Definition static_then_raw : World DemoArgs :=
  (AddRaw 7 1 (AddStatic 1 start).2).2.

(** The demo's two observers, [Logger] at [10] and [HUD] at [20]. *)
Definition demo : World DemoArgs :=
  (AddRaw 20 1 (AddRaw 10 1 start).2).2.


(** [Func 1] broadcasts again, always. *)
Definition looper : Callee → DemoArgs → World DemoArgs → list (Action DemoArgs) * unit :=
  λ c args _,
    match c with
    | CallFunc 1 => ([ActBroadcast args], tt)
    | _ => ([], tt)
    end.

(** [Func 1] registers [Func 2]. *)
Definition recruiter : Callee → DemoArgs → World DemoArgs → list (Action DemoArgs) * unit :=
  λ c _ _,
    match c with
    | CallFunc 1 => ([ActAddStatic 2], tt)
    | _ => ([], tt)
    end.

(** ** The subject of the demo (Observer_MetaProgramming.cpp)

    An [int] has 32 bits.  Where the sum of two of them is not an [int] the
    language leaves the behaviour of the addition open; it is written here
    as the machine does it, wrapping around in two's complement, and the
    properties assume that the sum is an [int]. *)

Definition INT_MIN : Z := -2147483648.
Definition INT_MAX : Z := 2147483647.
Definition UINT_MODULUS : Z := 4294967296.

(** [a + b] on [int]. *)
Definition int_add (a b : Z) : Z :=
  (a + b - INT_MIN) mod UINT_MODULUS + INT_MIN.

(** [std::clamp(v, lo, hi)]. *)
Definition clamp (v lo hi : Z) : Z :=
  if v <? lo then lo else if hi <? v then hi else v.

Record Entity : Type := mkEntity {
  OnHealthChanged : World DemoArgs;
  MaxHealth : Z;
  Health : Z
}.

(** [Entity Player;] *)
Definition new_Entity (w : World DemoArgs) : Entity := mkEntity w 100 100.

Definition ApplyHealthChanged
    (call : Callee → DemoArgs → World DemoArgs → Outcome (World DemoArgs * unit))
    (InDelta : Z) (e : Entity) : Outcome Entity :=
  let Health' := clamp (int_add (Health e) InDelta) 0 (MaxHealth e) in
  w' ← Broadcast tt copied call [MaxHealth e; Health'; InDelta] (OnHealthChanged e);
  Done (mkEntity w' (MaxHealth e) Health').

(** [main]: [Logger] is the object [10], [HUD] the object [20], [Update] the
    method [1] of both; what they print is the [trace]. *)
Definition main
    (call : Callee → DemoArgs → World DemoArgs → Outcome (World DemoArgs * unit))
  : Outcome Entity :=
  let Player := new_Entity start in
  let Player := mkEntity (AddRaw 10 1 (OnHealthChanged Player)).2
                         (MaxHealth Player) (Health Player) in
  let Player := mkEntity (AddRaw 20 1 (OnHealthChanged Player)).2
                         (MaxHealth Player) (Health Player) in
  Player ← ApplyHealthChanged call (-50) Player;
  Player ← ApplyHealthChanged call 10 Player;
  let Player := mkEntity (RemoveAll 10 (OnHealthChanged Player))
                         (MaxHealth Player) (Health Player) in
  Player ← ApplyHealthChanged call 10 Player;
  let '(Handle, w) := AddRaw 10 1 (OnHealthChanged Player) in
  let Player := mkEntity w (MaxHealth Player) (Health Player) in
  Player ← ApplyHealthChanged call 10 Player;
  let Player := mkEntity (Remove Handle (OnHealthChanged Player))
                         (MaxHealth Player) (Health Player) in
  Player ← ApplyHealthChanged call 10 Player;
  Done Player.

(** * Properties *)

(** ** The two vector algorithms *)

Lemma erase_remove_if_filter {A : Type} (p : A → bool) (P : A → Prop)
    `{!∀ x, Decision (P x)} (l : list A) :
  (∀ x, p x = false ↔ P x) →
  erase_remove_if p l = filter P l.
Proof.
  intros Hp. induction l as [|x l IH]; [done|]. cbn [erase_remove_if].
  destruct (p x) eqn:Hx.
  - rewrite filter_cons_False; [done|]. rewrite <- Hp. congruence.
  - rewrite filter_cons_True by (by apply Hp). by f_equal.
Qed.

Lemma erase_remove_if_sublist {A : Type} (p : A → bool) (l : list A) :
  erase_remove_if p l `sublist_of` l.
Proof.
  induction l as [|x l IH]; cbn [erase_remove_if]; [constructor|].
  destruct (p x); by constructor.
Qed.

Lemma elem_of_erase_remove_if {A : Type} (p : A → bool) (l : list A) (x : A) :
  x ∈ erase_remove_if p l ↔ x ∈ l ∧ p x = false.
Proof.
  rewrite (erase_remove_if_filter p (λ y, p y = false)) by done.
  rewrite list_elem_of_filter. tauto.
Qed.

Lemma find_if_none {A : Type} (p : A → bool) (l : list A) :
  find_if p l = length l ↔ Forall (λ x, p x = false) l.
Proof.
  induction l as [|x l IH]; simpl.
  - split; [constructor | done].
  - destruct (p x) eqn:Hx.
    + split; [done|]. intros H. apply Forall_cons in H as [? _]. congruence.
    + rewrite Forall_cons, <- IH. split; [intros [= ->] | intros [_ ->]]; done.
Qed.

Lemma find_if_split {A : Type} (p : A → bool) (l : list A) :
  find_if p l ≠ length l →
  ∃ l1 x l2,
    l = l1 ++ x :: l2 ∧ length l1 = find_if p l ∧ p x = true ∧
    Forall (λ y, p y = false) l1.
Proof.
  induction l as [|x l IH]; simpl; [done|].
  destruct (p x) eqn:Hx.
  - intros _. by exists [], x, l.
  - intros Hn. destruct IH as (l1 & y & l2 & -> & Hlen & Hy & Hl1); [lia|].
    exists (x :: l1), y, l2. simpl. rewrite Hlen. by repeat constructor.
Qed.

Lemma erase_middle {A : Type} (l1 l2 : list A) (x : A) :
  erase (length l1) (l1 ++ x :: l2) = l1 ++ l2.
Proof.
  unfold erase. rewrite take_app_length. f_equal.
  induction l1 as [|y l1 IH]; [done | exact IH].
Qed.

Section Properties.

Variables Args Ret : Type.
Variable RetDefault : Ret.
Variable moved_from : Args → Args.
Variable handler : Callee → Args → World Args → list (Action Args) * Ret.

Implicit Types (w : World Args) (i : DelegateInstance) (d : TDelegate).
Implicit Types (args : Args) (E : FEntry) (h : FDelegateHandle).

Lemma not_in_handles (l : list FEntry) h :
  Forall (λ E, (Handle E =? h) = false) l ↔ h ∉ (Handle <$> l).
Proof.
  rewrite Forall_forall, list_elem_of_fmap. split.
  - intros Hall (E & -> & HE). specialize (Hall E HE). lia.
  - intros Hno E HE. apply Z.eqb_neq. intros Heq. apply Hno. by exists E.
Qed.

(** ** Unicast delegate *)

(** C7, as amended.  [IsBound] holds exactly when an instance is present and
    safe to execute.  [GetHandle] looks at the presence of the instance only:
    it returns the handle of the instance whenever one is present, safe or
    not, and the invalid handle [0] when there is none. *)
Theorem TDelegate_IsBound_GetHandle w d :
  (TDelegate_IsBound w d = true ↔
   ∃ i, d = Some i ∧ IsSafeToExecute w i = true) ∧
  (∀ i, d = Some i → TDelegate_GetHandle d = Instance_GetHandle i) ∧
  (d = None →
   TDelegate_GetHandle d = FDelegateHandle_default ∧
   IsValid (TDelegate_GetHandle d) = false) ∧
  TDelegate_GetHandle (TDelegate_Unbind d) = FDelegateHandle_default.
Proof.
  split; [|split; [|split]].
  - destruct d as [i|]; simpl.
    + split; [eauto | by intros (? & [= <-] & ?)].
    + split; [discriminate | by intros (? & ? & _)].
  - by intros i ->.
  - by intros ->.
  - done.
Qed.

(** C8.  On an unsafe instance [ExecuteIfSafe] calls nothing, leaves the
    world as it is and returns the default result; on a safe one it is
    [Execute] on the same arguments.  The same holds of
    [TDelegate::ExecuteIfBound] with respect to [IsBound] and
    [TDelegate::Execute]. *)
Theorem ExecuteIfSafe_ExecuteIfBound
    (call : Callee → Args → World Args → Outcome (World Args * Ret)) args w :
  (∀ i, ExecuteIfSafe RetDefault call i args w =
        if IsSafeToExecute w i then Execute call i args w
        else Done (w, RetDefault)) ∧
  (∀ d, TDelegate_ExecuteIfBound RetDefault call d args w =
        if TDelegate_IsBound w d then TDelegate_Execute call d args w
        else Done (w, RetDefault)).
Proof.
  split.
  - intros i. unfold ExecuteIfSafe, IsCompactable, Execute.
    destruct i; destruct (IsSafeToExecute w _) eqn:Hs; simpl; try done;
      by rewrite Hs.
  - intros d. unfold TDelegate_ExecuteIfBound, TDelegate_Execute.
    by destruct (TDelegate_IsBound w d).
Qed.

(** ** Multicast delegate: removal *)

(** C5.  [RemoveAll(nullptr)] leaves the delegate as it is; for a non-null
    owner the entries that stay are those recorded with another owner, in
    their order. *)
Theorem RemoveAll_spec w :
  RemoveAll 0 w = w ∧
  ∀ InOwner, InOwner ≠ 0 →
    RemoveAll InOwner w =
      set_Entries (filter (λ E, Owner E ≠ InOwner) (Entries w)) w.
Proof.
  split; [done|]. intros InOwner Hnz. unfold RemoveAll.
  destruct (Z.eqb_spec InOwner 0) as [|_]; [done|]. f_equal.
  apply erase_remove_if_filter. intros E. apply Z.eqb_neq.
Qed.

(** C6.  [Remove(h)] changes nothing when no entry carries [h]; otherwise
    exactly one entry goes, it carries [h] and it is the first that does, all
    the others stay in place.  When the stored handles are pairwise distinct
    no entry carrying [h] is left. *)
Theorem Remove_spec w h :
  ((h ∉ handles w) ∧ Remove h w = w) ∨
  (∃ l1 E l2,
     Entries w = l1 ++ E :: l2 ∧ Handle E = h ∧ (h ∉ Handle <$> l1) ∧
     Remove h w = set_Entries (l1 ++ l2) w ∧
     (NoDup (handles w) → h ∉ handles (Remove h w))).
Proof.
  unfold Remove, handles.
  destruct (decide (find_if (λ E, Handle E =? h) (Entries w) = length (Entries w)))
    as [Hend|Hfound].
  - left. split; [|done]. by apply not_in_handles, find_if_none.
  - right. destruct (find_if_split _ _ Hfound) as (l1 & E & l2 & HE & Hlen & Hh & Hl1).
    exists l1, E, l2. apply Z.eqb_eq in Hh. apply not_in_handles in Hl1.
    assert (erase (length l1) (Entries w) = l1 ++ l2) as Herase
      by (rewrite HE; apply erase_middle).
    rewrite <- Hlen, Herase. repeat split; try done.
    intros Hnd. simpl. rewrite HE, fmap_app, fmap_cons in Hnd.
    apply NoDup_app in Hnd as (_ & Hl12 & Hnd2). apply NoDup_cons in Hnd2 as [Hn2 _].
    rewrite fmap_app, elem_of_app. intros [Hin|Hin]; [done|].
    by rewrite Hh in Hn2.
Qed.

(** ** Multicast delegate: broadcast on an empty delegate *)

(** C10.  On an empty delegate [Broadcast] returns at once: no target is
    called and the whole world, the delegate included, is as before. *)
Theorem Broadcast_empty
    (call : Callee → Args → World Args → Outcome (World Args * Ret)) args w :
  Entries w = [] →
  Broadcast RetDefault moved_from call args w = Done w.
Proof. intros Hempty. unfold Broadcast. by rewrite Hempty. Qed.

Lemma do_action_prim
    (call : Callee → Args → World Args → Outcome (World Args * Ret)) a w :
  is_broadcast a = false → do_action RetDefault moved_from call a w = Done (prim a w).
Proof. by destruct a. Qed.

(** ** A rule for everything a run can do

    A relation between worlds that is a preorder and contains the recording
    of a call to a safe instance, every step that a handler may take and the
    compaction, contains every run. *)

Section RunRelation.

Variable R : World Args → World Args → Prop.
Variable ok : Action Args → Prop.

Hypothesis R_refl : ∀ w, R w w.
Hypothesis R_trans : ∀ w1 w2 w3, R w1 w2 → R w2 w3 → R w1 w3.
Hypothesis R_record :
  ∀ i args w, IsSafeToExecute w i = true → R w (record_call i args w).
Hypothesis R_prim : ∀ a w, ok a → is_broadcast a = false → R w (prim a w).
Hypothesis R_compact : ∀ w, R w (compact w).
Hypothesis handler_ok : ∀ c args w, Forall ok (handler c args w).1.

Section OneLevel.

Variable call : Callee → Args → World Args → Outcome (World Args * Ret).
Hypothesis call_R : ∀ c args w w' r, call c args w = Done (w', r) → R w w'.

Lemma Execute_R i args w w' r :
  Execute call i args w = Done (w', r) → R w w'.
Proof.
  unfold Execute, call_target. destruct (IsSafeToExecute w i) eqn:Hs; [|done].
  intros Hc. eapply R_trans; [by apply R_record | by eapply call_R].
Qed.

Lemma ExecuteIfBound_R d args w w' r :
  TDelegate_ExecuteIfBound RetDefault call d args w = Done (w', r) → R w w'.
Proof.
  unfold TDelegate_ExecuteIfBound.
  destruct (TDelegate_IsBound w d); simpl.
  - destruct d as [i|]; [apply Execute_R | done].
  - by intros [= <- _].
Qed.

Lemma dispatch_R Snapshot args w w' :
  dispatch RetDefault moved_from call Snapshot args w = Done w' → R w w'.
Proof.
  revert args w. induction Snapshot as [|E rest IH]; intros args w; simpl.
  - by intros [= <-].
  - intros H. bind_inv H. destruct a as [w1 r]. simpl in H.
    eapply R_trans; [by eapply ExecuteIfBound_R | by eapply IH].
Qed.

Lemma Broadcast_R args w w' :
  Broadcast RetDefault moved_from call args w = Done w' → R w w'.
Proof.
  unfold Broadcast. destruct (Entries w) as [|E rest] eqn:HE.
  - by intros [= <-].
  - rewrite <- HE. intros H. bind_inv H. injection H as <-.
    eapply R_trans; [by eapply dispatch_R | apply R_compact].
Qed.

Lemma do_action_R a w w' :
  ok a → do_action RetDefault moved_from call a w = Done w' → R w w'.
Proof.
  intros Hok. destruct (is_broadcast a) eqn:Hb.
  - destruct a; try done. apply Broadcast_R.
  - rewrite do_action_prim by done. intros [= <-]. by apply R_prim.
Qed.

Lemma do_actions_R acts w w' :
  Forall ok acts → do_actions RetDefault moved_from call acts w = Done w' → R w w'.
Proof.
  intros Hok. revert w. induction Hok as [|a acts Ha Hacts IH]; intros w; simpl.
  - by intros [= <-].
  - intros H. bind_inv H.
    eapply R_trans; [by eapply do_action_R | by apply IH].
Qed.

End OneLevel.

Lemma invoke_R fuel c args w w' r :
  invoke RetDefault moved_from handler fuel c args w = Done (w', r) → R w w'.
Proof.
  revert c args w w' r. induction fuel as [|fuel IH]; intros c args w w' r; [done|].
  simpl. specialize (handler_ok c args w).
  destruct (handler c args w) as [acts r0]. intros H. bind_inv H.
  injection H as <- <-. eapply do_actions_R; [apply IH | done | done].
Qed.

Lemma run_dispatch_R fuel Snapshot args w w' :
  dispatch RetDefault moved_from (invoke RetDefault moved_from handler fuel) Snapshot args w = Done w' →
  R w w'.
Proof. apply dispatch_R, invoke_R. Qed.

Lemma run_actions_R fuel acts w w' :
  Forall ok acts →
  do_actions RetDefault moved_from (invoke RetDefault moved_from handler fuel) acts w = Done w' →
  R w w'.
Proof. apply do_actions_R, invoke_R. Qed.

End RunRelation.

(** ** What the steps leave alone *)

Lemma AddInternal_fields d InOwner w :
  trace (AddInternal d InOwner w).2 = trace w ∧
  destroyed (AddInternal d InOwner w).2 = destroyed w.
Proof. unfold AddInternal. by destruct (negb (IsValid (TDelegate_GetHandle d))). Qed.

Lemma prim_trace (a : Action Args) w : trace (prim a w) = trace w.
Proof.
  destruct a; simpl; try done;
    try (unfold AddStatic, AddRaw, AddWeak, AddLambda; simpl;
         by rewrite (proj1 (AddInternal_fields _ _ _))).
  - unfold Remove. by case_decide.
  - unfold RemoveAll. by destruct (InOwner =? 0).
Qed.

Lemma prim_destroyed (a : Action Args) w :
  destroyed (prim a w) =
    match a with
    | ActDestroy obj => {[obj]} ∪ destroyed w
    | _ => destroyed w
    end.
Proof.
  destruct a; simpl; try done;
    try (unfold AddStatic, AddRaw, AddWeak, AddLambda; simpl;
         by rewrite (proj2 (AddInternal_fields _ _ _))).
  - unfold Remove. by case_decide.
  - unfold RemoveAll. by destruct (InOwner =? 0).
Qed.

Lemma prim_destroyed_quiet (a : Action Args) w :
  is_destroy a = false → destroyed (prim a w) = destroyed w.
Proof. intros Ha. rewrite prim_destroyed. by destruct a. Qed.

(** Safety reads the world only through [destroyed]. *)
Lemma IsSafeToExecute_ext w w' i :
  destroyed w = destroyed w' → IsSafeToExecute w i = IsSafeToExecute w' i.
Proof. intros Hd. destruct i; simpl; try done. unfold expired. by rewrite Hd. Qed.

Lemma TDelegate_IsBound_ext w w' d :
  destroyed w = destroyed w' → TDelegate_IsBound w d = TDelegate_IsBound w' d.
Proof. intros Hd. destruct d; simpl; [by apply IsSafeToExecute_ext | done]. Qed.

(** No transition restores safety: what is safe later was safe before. *)
Lemma IsSafeToExecute_earlier w w' i :
  destroyed w ⊆ destroyed w' →
  IsSafeToExecute w' i = true → IsSafeToExecute w i = true.
Proof.
  intros Hsub. destruct i; simpl; try done. unfold expired.
  rewrite !andb_true_iff, !negb_true_iff, !orb_false_iff, !bool_decide_eq_false.
  intros [[Hz Hin] Hm]. repeat split; try done. intros Hw. by apply Hin, Hsub.
Qed.

(** An instance stays safe as long as the object it depends on lives. *)
Lemma IsSafeToExecute_later w w' i :
  (∀ obj, weak_target i = Some obj → obj ∈ destroyed w' → obj ∈ destroyed w) →
  IsSafeToExecute w i = true → IsSafeToExecute w' i = true.
Proof.
  intros Hkeep. destruct i; simpl; try done. unfold expired.
  rewrite !andb_true_iff, !negb_true_iff, !orb_false_iff, !bool_decide_eq_false.
  intros [[Hz Hin] Hm]. repeat split; try done. intros Hw. by apply Hin, Hkeep.
Qed.

(** After the compaction every entry is bound. *)
Lemma compact_all_bound w E :
  E ∈ Entries (compact w) →
  E ∈ Entries w ∧ TDelegate_IsBound (compact w) (Delegate E) = true.
Proof.
  unfold compact. simpl. rewrite elem_of_erase_remove_if, negb_false_iff.
  intros [HE Hb]. split; [done|]. by rewrite <- Hb.
Qed.

(** ** Runs never revive an object and only call safe instances *)

Lemma grows_safely_frame w w' :
  destroyed w ⊆ destroyed w' → trace w' = trace w → grows_safely w w'.
Proof.
  intros Hd Ht. split; [done|]. exists []. rewrite Ht, app_nil_r.
  split; [done|]. by intros ? ?%elem_of_nil.
Qed.

Lemma grows_safely_refl w : grows_safely w w.
Proof. by apply grows_safely_frame. Qed.

Lemma grows_safely_trans w1 w2 w3 :
  grows_safely w1 w2 → grows_safely w2 w3 → grows_safely w1 w3.
Proof.
  intros (Hd1 & evs1 & Ht1 & Hs1) (Hd2 & evs2 & Ht2 & Hs2).
  split; [set_solver|]. exists (evs1 ++ evs2). split.
  - by rewrite Ht2, Ht1, app_assoc.
  - intros ev [?|?]%elem_of_app; [by apply Hs1|].
    eapply IsSafeToExecute_earlier; [exact Hd1 | by apply Hs2].
Qed.

Lemma grows_safely_record i args w :
  IsSafeToExecute w i = true → grows_safely w (record_call i args w).
Proof.
  intros Hs. split; [done|]. exists [(i, args)]. split; [done|].
  by intros ev ->%list_elem_of_singleton.
Qed.

Lemma grows_safely_compact w : grows_safely w (compact w).
Proof. by apply grows_safely_frame. Qed.

Lemma invoke_grows_safely fuel c args w w' r :
  invoke RetDefault moved_from handler fuel c args w = Done (w', r) → grows_safely w w'.
Proof.
  apply invoke_R with (ok := λ _, True).
  - apply grows_safely_refl.
  - apply grows_safely_trans.
  - apply grows_safely_record.
  - intros a w0 _ _. apply grows_safely_frame; [|apply prim_trace].
    rewrite prim_destroyed. destruct a; set_solver.
  - apply grows_safely_compact.
  - intros c0 args0 w0. by apply Forall_true.
Qed.

Lemma dispatch_grows_safely fuel Snapshot args w w' :
  dispatch RetDefault moved_from (invoke RetDefault moved_from handler fuel) Snapshot args w = Done w' →
  grows_safely w w'.
Proof.
  apply dispatch_R;
    eauto using grows_safely_refl, grows_safely_trans, grows_safely_record,
      invoke_grows_safely.
Qed.

Lemma Broadcast_grows_safely fuel args w w' :
  Broadcast RetDefault moved_from (invoke RetDefault moved_from handler fuel) args w = Done w' →
  grows_safely w w'.
Proof.
  apply Broadcast_R;
    eauto using grows_safely_refl, grows_safely_trans, grows_safely_record,
      grows_safely_compact, invoke_grows_safely.
Qed.

(** ** Objects that no handler destroys stay alive *)

Lemma dispatch_keeps_alive obj fuel Snapshot args w w' :
  never_destroyed handler obj →
  dispatch RetDefault moved_from (invoke RetDefault moved_from handler fuel) Snapshot args w = Done w' →
  keeps_alive obj w w'.
Proof.
  intros Hnever.
  apply run_dispatch_R with (ok := λ a, a ≠ ActDestroy obj); unfold keeps_alive.
  - done.
  - auto.
  - done.
  - intros a w0 Ha _. rewrite prim_destroyed. destruct a; try done.
    rewrite elem_of_union, elem_of_singleton. intros [->|?]; done.
  - done.
  - intros c args0 w0. apply Forall_forall. intros a Hin ->. by eapply Hnever.
Qed.

(** ** The loop over the snapshot *)

(** The turns behind [l1] find the parameters passed on once for each entry
    of [l1]. *)
Lemma dispatch_app
    (call : Callee → Args → World Args → Outcome (World Args * Ret))
    (l1 l2 : list FEntry) args w :
  dispatch RetDefault moved_from call (l1 ++ l2) args w =
    dispatch RetDefault moved_from call l1 args w ≫=
    dispatch RetDefault moved_from call l2 (forwarded moved_from (length l1) args).
Proof.
  revert args w. induction l1 as [|E l1 IH]; intros args w; [done|]. simpl.
  destruct (TDelegate_ExecuteIfBound RetDefault call (Delegate E) args w)
    as [[w1 r]| |]; simpl; [apply IH | done | done].
Qed.

(** The turn of an entry: when the earlier turns have left the world [w1]
    and the instance is safe there, the call is recorded and the target is
    entered.  Nothing is asked of the live sequence of [w1]. *)
Lemma dispatch_calls_at_turn fuel pre E post args w w1 w' i :
  dispatch RetDefault moved_from (invoke RetDefault moved_from handler fuel)
    (pre ++ E :: post) args w = Done w' →
  dispatch RetDefault moved_from (invoke RetDefault moved_from handler fuel)
    pre args w = Done w1 →
  Delegate E = Some i →
  IsSafeToExecute w1 i = true →
  let args1 := forwarded moved_from (length pre) args in
  ∃ w2 r evs1 evs2 evs3,
    trace w1 = trace w ++ evs1 ∧
    invoke RetDefault moved_from handler fuel (callee_of i) args1
      (record_call i args1 w1) = Done (w2, r) ∧
    trace w2 = trace w1 ++ (i, args1) :: evs2 ∧
    dispatch RetDefault moved_from (invoke RetDefault moved_from handler fuel)
      post (moved_from args1) w2 = Done w' ∧
    trace w' = trace w2 ++ evs3.
Proof.
  intros Hrun Hpre HE Hsafe1 args1. rewrite dispatch_app, Hpre in Hrun.
  fold args1 in Hrun.
  cbn [mbind Outcome_bind dispatch] in Hrun. bind_inv Hrun. destruct a as [w2 r].
  cbn [fst] in Hrun.
  destruct (dispatch_grows_safely _ _ _ _ _ Hpre) as (_ & evs1 & Ht1 & _).
  destruct (dispatch_grows_safely _ _ _ _ _ Hrun) as (_ & evs3 & Ht3 & _).
  unfold TDelegate_ExecuteIfBound in Hrun_1. rewrite HE in Hrun_1.
  cbn [TDelegate_IsBound] in Hrun_1. rewrite Hsafe1 in Hrun_1. cbn [negb] in Hrun_1.
  unfold Execute, call_target in Hrun_1. rewrite Hsafe1 in Hrun_1.
  destruct (invoke_grows_safely _ _ _ _ _ _ Hrun_1) as (_ & evs2 & Ht2 & _).
  exists w2, r, evs1, evs2, evs3. repeat split; try done.
  rewrite Ht2. simpl. by rewrite <- app_assoc.
Qed.

(** An instance that is safe when the pass starts, and whose target no
    handler destroys, is safe when its turn comes. *)
Lemma dispatch_keeps_safe fuel pre args w w1 i :
  dispatch RetDefault moved_from (invoke RetDefault moved_from handler fuel) pre args w = Done w1 →
  IsSafeToExecute w i = true →
  (∀ obj, weak_target i = Some obj → never_destroyed handler obj) →
  IsSafeToExecute w1 i = true.
Proof.
  intros Hpre Hsafe Hkeep. eapply IsSafeToExecute_later; [|exact Hsafe].
  intros obj Hobj. eapply dispatch_keeps_alive; [by apply Hkeep | exact Hpre].
Qed.

(** So such an entry of the snapshot is called when its turn comes, whatever
    has happened to the live sequence in between. *)
Lemma dispatch_calls_kept fuel Snapshot args w w' E i :
  dispatch RetDefault moved_from (invoke RetDefault moved_from handler fuel) Snapshot args w = Done w' →
  E ∈ Snapshot →
  Delegate E = Some i →
  IsSafeToExecute w i = true →
  (∀ obj, weak_target i = Some obj → never_destroyed handler obj) →
  ∃ evs1 evs2 args1, trace w' = trace w ++ evs1 ++ (i, args1) :: evs2.
Proof.
  intros Hrun (l1 & l2 & ->)%list_elem_of_split HE Hsafe Hkeep.
  pose proof Hrun as Hpre. rewrite dispatch_app in Hpre. bind_inv Hpre.
  rename a into w1. clear Hpre.
  destruct (dispatch_calls_at_turn _ _ _ _ _ _ _ _ _ Hrun Hpre_1 HE)
    as (w2 & r & evs1 & evs2 & evs3 & Ht1 & _ & Ht2 & _ & Ht3).
  { by eapply dispatch_keeps_safe. }
  exists evs1, (evs2 ++ evs3), (forwarded moved_from (length l1) args).
  rewrite Ht3, Ht2, Ht1. by rewrite <- !app_assoc.
Qed.

(** ** Handlers that do not broadcast: the pass terminates *)

Lemma do_actions_prims
    (call : Callee → Args → World Args → Outcome (World Args * Ret))
    (acts : list (Action Args)) w :
  Forall (λ a, is_broadcast a = false) acts →
  do_actions RetDefault moved_from call acts w = Done (foldl (λ w0 a, prim a w0) w acts).
Proof.
  intros Hacts. revert w.
  induction Hacts as [|a acts Ha _ IH]; intros w; [done|].
  cbn [do_actions foldl]. rewrite do_action_prim by done. apply IH.
Qed.

Lemma invoke_S fuel c args w :
  invoke RetDefault moved_from handler (S fuel) c args w =
    do_actions RetDefault moved_from (invoke RetDefault moved_from handler fuel) (handler c args w).1 w
      ≫= λ w', Done (w', (handler c args w).2).
Proof. simpl. by destruct (handler c args w). Qed.

Lemma invoke_prims fuel c args w :
  Forall (λ a, is_broadcast a = false) (handler c args w).1 →
  invoke RetDefault moved_from handler (S fuel) c args w =
    Done (foldl (λ w0 a, prim a w0) w (handler c args w).1, (handler c args w).2).
Proof. intros Hacts. by rewrite invoke_S, do_actions_prims. Qed.

Lemma dispatch_total
    (call : Callee → Args → World Args → Outcome (World Args * Ret))
    Snapshot args w :
  (∀ c args0 w0, ∃ w' r, call c args0 w0 = Done (w', r)) →
  ∃ w', dispatch RetDefault moved_from call Snapshot args w = Done w'.
Proof.
  intros Hcall. revert args w.
  induction Snapshot as [|E rest IH]; intros args w; [by eexists|].
  cbn [dispatch]. unfold TDelegate_ExecuteIfBound.
  destruct (TDelegate_IsBound w (Delegate E)) eqn:Hb; simpl; [|apply IH].
  destruct (Delegate E) as [i|]; [|done]. simpl in Hb.
  unfold Execute, call_target. rewrite Hb.
  destruct (Hcall (callee_of i) args (record_call i args w)) as (w1 & r & ->).
  apply IH.
Qed.

Lemma Broadcast_total fuel args w :
  never_rebroadcast handler →
  ∃ w', Broadcast RetDefault moved_from (invoke RetDefault moved_from handler (S fuel)) args w = Done w'.
Proof.
  intros Hnever. unfold Broadcast. destruct (Entries w) as [|E rest] eqn:HE; [by eexists|].
  rewrite <- HE.
  destruct (dispatch_total (invoke RetDefault moved_from handler (S fuel)) (Entries w) args w)
    as [w1 ->]; [|by eexists].
  intros c args0 w0. rewrite invoke_prims by apply Hnever. by do 2 eexists.
Qed.

(** ** Broadcast and targets that are gone *)

Lemma Broadcast_nonempty
    (call : Callee → Args → World Args → Outcome (World Args * Ret)) args w :
  Entries w ≠ [] →
  Broadcast RetDefault moved_from call args w =
    dispatch RetDefault moved_from call (Entries w) args w ≫= λ w', Done (compact w').
Proof. unfold Broadcast. by destruct (Entries w). Qed.




(** ** Quiet handlers *)

Lemma foldl_prim_quiet (acts : list (Action Args)) w :
  Forall quiet acts →
  trace (foldl (λ w0 a, prim a w0) w acts) = trace w ∧
  destroyed (foldl (λ w0 a, prim a w0) w acts) = destroyed w.
Proof.
  intros Hacts. revert w.
  induction Hacts as [|a acts [_ Ha] _ IH]; intros w; [done|].
  cbn [foldl]. destruct (IH (prim a w)) as [-> ->].
  by rewrite prim_trace, prim_destroyed_quiet.
Qed.

Lemma quiet_no_broadcast (acts : list (Action Args)) :
  Forall quiet acts → Forall (λ a, is_broadcast a = false) acts.
Proof. intros Hacts. eapply Forall_impl; [exact Hacts|]. by intros a [? _]. Qed.

(** One turn of the loop on a safe entry with a quiet handler. *)
Lemma ExecuteIfBound_quiet fuel i args w :
  IsSafeToExecute w i = true →
  Forall quiet (handler (callee_of i) args (record_call i args w)).1 →
  ∃ w' r,
    TDelegate_ExecuteIfBound RetDefault (invoke RetDefault moved_from handler (S fuel))
      (Some i) args w = Done (w', r) ∧
    trace w' = trace w ++ [(i, args)] ∧ destroyed w' = destroyed w.
Proof.
  intros Hsafe Hquiet. unfold TDelegate_ExecuteIfBound, Execute, call_target.
  cbn [TDelegate_IsBound]. rewrite Hsafe. cbn [negb].
  rewrite invoke_prims by by apply quiet_no_broadcast.
  do 2 eexists. split; [done|].
  by destruct (foldl_prim_quiet _ (record_call i args w) Hquiet) as [-> ->].
Qed.

Lemma dispatch_quiet fuel Snapshot args w :
  (∀ E, E ∈ Snapshot → TDelegate_IsBound w (Delegate E) = true) →
  (∀ E i args0 w0, E ∈ Snapshot → Delegate E = Some i →
     Forall quiet (handler (callee_of i) args0 w0).1) →
  ∃ w' evs,
    dispatch RetDefault moved_from (invoke RetDefault moved_from handler (S fuel)) Snapshot args w = Done w' ∧
    trace w' = trace w ++ evs ∧ one_call_per_turn moved_from args Snapshot evs ∧
    destroyed w' = destroyed w.
Proof.
  revert args w. induction Snapshot as [|E rest IH]; intros args w Hbound Hquiet.
  { exists w, []. rewrite app_nil_r. by repeat split. }
  pose proof (Hbound E ltac:(left)) as HE.
  destruct (Delegate E) as [i|] eqn:Hi; [|done]. cbn [TDelegate_IsBound] in HE.
  destruct (ExecuteIfBound_quiet fuel i args w HE) as (w1 & r & Hstep & Ht1 & Hd1).
  { eapply Hquiet; [left | done]. }
  destruct (IH (moved_from args) w1) as (w' & evs & Hrun & Ht & Hone & Hd).
  { intros E' HE'. rewrite (TDelegate_IsBound_ext w1 w) by done.
    apply Hbound. by right. }
  { intros E' i' args0 w0 HE'. apply Hquiet. by right. }
  exists w', ((i, args) :: evs). cbn [dispatch]. rewrite Hi, Hstep.
  cbn [mbind Outcome_bind fst].
  rewrite Hrun, Ht, Ht1, Hd, Hd1, <- app_assoc. by repeat split.
Qed.

Lemma one_call_per_turn_in_order args (l : list FEntry)
    (evs : list (DelegateInstance * Args)) :
  one_call_per_turn moved_from args l evs → called_in_order l evs.
Proof.
  revert args evs. induction l as [|E l IH]; intros args [|ev evs]; try done.
  - constructor.
  - intros (HE & _ & Hrest). constructor; [done | by eapply IH].
Qed.

(** Parameters that passing on leaves as they are reach every turn. *)
Lemma one_call_per_turn_same args (l : list FEntry)
    (evs : list (DelegateInstance * Args)) :
  moved_from args = args →
  one_call_per_turn moved_from args l evs → one_call_each args l evs.
Proof.
  intros Hfix. revert evs. induction l as [|E l IH]; intros [|ev evs]; try done.
  - constructor.
  - intros (HE & Hev & Hrest). rewrite Hfix in Hrest.
    constructor; [done | by apply IH].
Qed.

(** C1, as amended.  Let every entry be safe when [Broadcast] is called, and
    let the handlers of these entries be quiet: they may register and remove
    entries, but they neither destroy an object nor broadcast again.  Then
    [Broadcast] returns, and the calls it has made are exactly one per entry,
    in the order of registration.  Where passing the arguments on leaves them
    as they are, every one of these calls has the arguments of the
    broadcast. *)
Theorem Broadcast_calls_each_once fuel args w :
  (∀ E, E ∈ Entries w → TDelegate_IsBound w (Delegate E) = true) →
  (∀ E i args0 w0, E ∈ Entries w → Delegate E = Some i →
     Forall quiet (handler (callee_of i) args0 w0).1) →
  ∃ w' evs,
    Broadcast RetDefault moved_from (invoke RetDefault moved_from handler (S fuel)) args w = Done w' ∧
    trace w' = trace w ++ evs ∧
    called_in_order (Entries w) evs ∧
    (moved_from args = args → one_call_each args (Entries w) evs).
Proof.
  intros Hbound Hquiet.
  destruct (dispatch_quiet fuel (Entries w) args w Hbound Hquiet)
    as (w1 & evs & Hrun & Ht & Hone & _).
  unfold Broadcast. destruct (Entries w) as [|E rest] eqn:HE.
  - exists w, []. rewrite app_nil_r. repeat split; constructor.
  - exists (compact w1), evs. rewrite Hrun. repeat split; try done.
    + by eapply one_call_per_turn_in_order.
    + intros Hfix. by apply one_call_per_turn_same.
Qed.

(** ** Unregistering during a pass *)

Lemma AddInternal_Entries d InOwner w :
  ∃ h, Entries (AddInternal d InOwner w).2 = Entries w ++ [mkEntry h d InOwner].
Proof.
  unfold AddInternal.
  destruct (negb (IsValid (TDelegate_GetHandle d))); by eexists.
Qed.

Lemma unregistered_sublist InOwner w (l : list FEntry) :
  l `sublist_of` Entries w →
  unregistered InOwner w → unregistered InOwner (set_Entries l w).
Proof. intros Hsub Hun E HE. apply Hun. by eapply elem_of_sublist. Qed.

Lemma erase_sublist {A : Type} (n : nat) (l : list A) : erase n l `sublist_of` l.
Proof.
  unfold erase. rewrite <- (take_drop n l) at 3.
  apply sublist_app; [done|].
  replace (drop (S n) l) with (drop 1 (drop n l))
    by (rewrite drop_drop; f_equal; lia).
  apply sublist_drop.
Qed.

Lemma prim_keeps_unregistered InOwner (a : Action Args) w :
  InOwner ≠ 0 → registers InOwner a = false →
  unregistered InOwner w → unregistered InOwner (prim a w).
Proof.
  intros Hnz Ha Hun.
  assert (∀ d o w0, o ≠ InOwner → Entries w0 = Entries w →
            unregistered InOwner (AddInternal d o w0).2) as Hadd.
  { intros d o w0 Ho Hw0 E. destruct (AddInternal_Entries d o w0) as [h ->].
    rewrite Hw0, elem_of_app, list_elem_of_singleton.
    intros [HE | ->]; [by apply Hun | done]. }
  destruct a; cbn [prim]; try done.
  - apply Hadd; [congruence | done].
  - apply Hadd; [|done]. simpl in Ha. lia.
  - apply Hadd; [congruence | done].
  - apply Hadd; [congruence | done].
  - unfold Remove. case_decide; [done|].
    apply unregistered_sublist; [apply erase_sublist | done].
  - unfold RemoveAll. destruct (InOwner0 =? 0); [done|].
    apply unregistered_sublist; [apply erase_remove_if_sublist | done].
  - apply unregistered_sublist; [apply sublist_nil_l | done].
Qed.

Lemma RemoveAll_unregistered InOwner w :
  InOwner ≠ 0 → unregistered InOwner (RemoveAll InOwner w).
Proof.
  intros Hnz. unfold RemoveAll. destruct (Z.eqb_spec InOwner 0) as [|_]; [done|].
  intros E [_ HE]%elem_of_erase_remove_if. by apply Z.eqb_neq.
Qed.

Lemma compact_keeps_unregistered InOwner w :
  unregistered InOwner w → unregistered InOwner (compact w).
Proof. apply unregistered_sublist, erase_remove_if_sublist. Qed.

Section Unregister.

Variable InOwner : Z.
Hypothesis InOwner_not_null : InOwner ≠ 0.
Hypothesis never_registered :
  ∀ c args w, Forall (λ a, registers InOwner a = false) (handler c args w).1.

Lemma invoke_keeps_unregistered fuel c args w w' r :
  invoke RetDefault moved_from handler fuel c args w = Done (w', r) →
  keeps_unregistered InOwner w w'.
Proof.
  apply invoke_R with (ok := λ a, registers InOwner a = false);
    unfold keeps_unregistered; auto.
  - intros a w0 Ha _. by apply prim_keeps_unregistered.
  - apply compact_keeps_unregistered.
Qed.

Lemma dispatch_keeps_unregistered fuel Snapshot args w w' :
  dispatch RetDefault moved_from (invoke RetDefault moved_from handler fuel) Snapshot args w = Done w' →
  keeps_unregistered InOwner w w'.
Proof.
  apply dispatch_R; try apply invoke_keeps_unregistered;
    unfold keeps_unregistered; auto.
Qed.

Lemma do_actions_keep_unregistered fuel acts w w' :
  Forall (λ a, registers InOwner a = false) acts →
  do_actions RetDefault moved_from (invoke RetDefault moved_from handler fuel) acts w = Done w' →
  keeps_unregistered InOwner w w'.
Proof.
  apply do_actions_R; try apply invoke_keeps_unregistered;
    unfold keeps_unregistered; auto.
  - intros a w0 Ha _. by apply prim_keeps_unregistered.
  - apply compact_keeps_unregistered.
Qed.

(** A handler that calls [RemoveAll(InOwner)] leaves no entry of that owner. *)
Lemma invoke_unregisters fuel c args w w' r :
  ActRemoveAll InOwner ∈ (handler c args w).1 →
  invoke RetDefault moved_from handler fuel c args w = Done (w', r) →
  unregistered InOwner w'.
Proof.
  destruct fuel as [|fuel]; [done|]. rewrite invoke_S.
  pose proof (never_registered c args w) as Hreg.
  intros (l1 & l2 & Hacts)%list_elem_of_split Hrun. rewrite Hacts in Hrun, Hreg.
  bind_inv Hrun. injection Hrun as <- _. clear Hacts. revert w Hrun_1.
  induction l1 as [|a1 l1 IH]; intros w; cbn [app do_actions do_action].
  - intros Hrun. cbn [mbind Outcome_bind] in Hrun.
    apply Forall_cons in Hreg as [_ Hreg].
    apply (do_actions_keep_unregistered _ _ _ _ Hreg Hrun).
    by apply RemoveAll_unregistered.
  - intros Hrun. bind_inv Hrun. apply Forall_cons in Hreg as [_ Hreg].
    by eapply IH.
Qed.

End Unregister.


(** ** Handles *)

Lemma fetch_add_mod (c : Z) :
  (c mod UINT64_MODULUS + 1) mod UINT64_MODULUS = (c + 1) mod UINT64_MODULUS.
Proof. by rewrite Z.add_mod_idemp_l. Qed.

Lemma handles_fresh_start w : process_start w → handles_fresh w.
Proof.
  intros (Hc & Hg & HE). unfold handles_fresh, handles. rewrite Hc, Hg, HE.
  split; [done|]. split; [done|]. intros _. split; [constructor|].
  by intros h ?%elem_of_nil.
Qed.

Lemma handles_fresh_sublist w (l : list FEntry) :
  l `sublist_of` Entries w →
  handles_fresh w → handles_fresh (set_Entries l w).
Proof.
  intros Hsub (Hg & Hc & Hfresh). split; [done|]. split; [done|].
  intros Hle. destruct (Hfresh Hle) as [Hnd Hbound]. split.
  - apply (sublist_NoDup _ _ Hnd). by apply fmap_sublist.
  - intros h Hh. apply Hbound. apply (elem_of_sublist _ _ _ Hh).
    by apply fmap_sublist.
Qed.

Lemma handles_fresh_GenerateNewID w :
  handles_fresh w → handles_fresh (GenerateNewID w).2.
Proof.
  intros (Hg & Hc & Hfresh). unfold handles_fresh, handles. cbn.
  split; [lia|]. split.
  - rewrite Hc, fetch_add_mod. f_equal. lia.
  - intros Hle. destruct Hfresh as [Hnd Hbound]; [lia|]. split; [done|].
    intros h Hh. apply Hbound in Hh. lia.
Qed.

(** Registration stores the handle just drawn for the instance, which is
    larger than every handle stored so far. *)
Lemma handles_fresh_AddInternal d InOwner w :
  TDelegate_GetHandle d = GDelegateNextID w →
  handles_fresh w →
  handles_fresh (AddInternal d InOwner (GenerateNewID w).2).2.
Proof.
  intros Hd (Hg & Hc & Hfresh). unfold AddInternal. rewrite Hd.
  unfold IsValid. destruct (Z.eqb_spec (GDelegateNextID w) 0) as [Hz|Hnz]; cbn.
  - unfold handles_fresh, handles. cbn. split; [lia|]. split.
    + rewrite Hc, fetch_add_mod, <- Z.add_assoc, Z.add_mod_idemp_l by done.
      f_equal. lia.
    + intros Hle. rewrite Z.mod_small in Hc by (unfold UINT64_MODULUS in *; lia).
      lia.
  - unfold handles_fresh, handles. cbn. split; [lia|]. split.
    + rewrite Hc, fetch_add_mod. f_equal. lia.
    + intros Hle. destruct Hfresh as [Hnd Hbound]; [lia|].
      rewrite Z.mod_small in Hc by (unfold UINT64_MODULUS in *; lia).
      rewrite fmap_app. cbn. split.
      * apply NoDup_app. split; [done|]. split; [|apply NoDup_singleton].
        intros h Hh ->%list_elem_of_singleton. apply Hbound in Hh. lia.
      * intros h [Hh | ->%list_elem_of_singleton]%elem_of_app;
          [apply Hbound in Hh|]; lia.
Qed.

Lemma prim_stays_fresh (a : Action Args) w : stays_fresh w (prim a w).
Proof.
  unfold stays_fresh. destruct a; cbn [prim]; try done.
  - by apply handles_fresh_AddInternal.
  - by apply handles_fresh_AddInternal.
  - by apply handles_fresh_AddInternal.
  - by apply handles_fresh_AddInternal.
  - unfold Remove. case_decide; [done|].
    apply handles_fresh_sublist, erase_sublist.
  - unfold RemoveAll. destruct (InOwner =? 0); [done|].
    apply handles_fresh_sublist, erase_remove_if_sublist.
  - apply handles_fresh_sublist, sublist_nil_l.
  - apply handles_fresh_GenerateNewID.
Qed.

Lemma do_actions_stay_fresh fuel acts w w' :
  do_actions RetDefault moved_from (invoke RetDefault moved_from handler fuel) acts w = Done w' →
  stays_fresh w w'.
Proof.
  apply run_actions_R with (ok := λ _, True); unfold stays_fresh; auto.
  - intros a w0 _ _. apply prim_stays_fresh.
  - intros w0. apply handles_fresh_sublist, erase_remove_if_sublist.
  - intros c args w0. by apply Forall_true.
  - by apply Forall_true.
Qed.

Lemma reachable_handles_fresh w : reachable RetDefault moved_from handler w → handles_fresh w.
Proof.
  intros (w0 & fuel & acts & Hstart & Hrun).
  by apply (do_actions_stay_fresh _ _ _ _ Hrun), handles_fresh_start.
Qed.

(** C4, as amended.  The first handle drawn in a process is [1].  As long as
    fewer than [2^64 - 1] handles have been drawn, the next one is the number
    of the draw, so it is valid and differs from all drawn before.  Two
    draws in a row never return the same value.  And in every state that a
    multicast delegate reaches, as long as fewer than [2^64] handles have been
    drawn in the process, the handles it stores are pairwise distinct. *)
Theorem handles_are_fresh :
  (∀ w : World Args, process_start w → (GenerateNewID w).1 = 1) ∧
  (∀ w, reachable RetDefault moved_from handler w →
        generated w < UINT64_MODULUS - 1 →
        (GenerateNewID w).1 = generated w + 1 ∧
        IsValid (GenerateNewID w).1 = true) ∧
  (∀ w : World Args,
        (GenerateNewID w).1 ≠ (GenerateNewID (GenerateNewID w).2).1) ∧
  (∀ w, reachable RetDefault moved_from handler w →
        generated w ≤ UINT64_MODULUS - 1 →
        NoDup (handles w)).
Proof.
  split; [|split; [|split]].
  - by intros w (Hc & _).
  - intros w (Hg & Hc & _)%reachable_handles_fresh Hlt. cbn.
    rewrite Z.mod_small in Hc by (unfold UINT64_MODULUS in *; lia).
    split; [lia|]. unfold IsValid. destruct (Z.eqb_spec (GDelegateNextID w) 0); [lia|done].
  - intros w. cbn. intros Heq.
    pose proof (Z.mod_pos_bound (GDelegateNextID w + 1) UINT64_MODULUS ltac:(done)) as Hb.
    rewrite <- Heq in Hb. destruct (decide (GDelegateNextID w + 1 = UINT64_MODULUS)) as [Hm|Hm].
    + rewrite Hm, Z.mod_same in Heq by done. unfold UINT64_MODULUS in Hm. lia.
    + rewrite Z.mod_small in Heq by lia. lia.
  - intros w (_ & _ & Hfresh)%reachable_handles_fresh Hle. by apply Hfresh.
Qed.

(** * Further properties *)

(** ** Registration and binding *)

Lemma fetch_add_changes (c : Z) : (c + 1) mod UINT64_MODULUS ≠ c.
Proof.
  intros Heq.
  pose proof (Z.mod_pos_bound (c + 1) UINT64_MODULUS ltac:(done)) as Hb.
  destruct (decide (c + 1 = UINT64_MODULUS)) as [Hm|Hm].
  - rewrite Hm, Z.mod_same in Heq by done. unfold UINT64_MODULUS in Hm. lia.
  - rewrite Z.mod_small in Heq by lia. lia.
Qed.

Lemma TDelegate_Bind_eq (t : Target) w :
  TDelegate_Bind t w =
    (Some (instance_of t (GDelegateNextID w)), (GenerateNewID w).2).
Proof. by destruct t. Qed.

Lemma Add_eq (t : Target) w :
  Add t w =
    AddInternal (Some (instance_of t (GDelegateNextID w))) (owner_of t)
      (GenerateNewID w).2.
Proof. by destruct t. Qed.

Lemma GetHandle_instance_of (t : Target) h :
  Instance_GetHandle (instance_of t h) = h.
Proof. by destruct t. Qed.

(** What a registration appends, and what it leaves alone. *)
Lemma Add_fields (t : Target) w :
  Entries (Add t w).2 =
    Entries w ++
      [mkEntry (Add t w).1 (Some (instance_of t (GDelegateNextID w))) (owner_of t)] ∧
  (GDelegateNextID w ≠ 0 → (Add t w).1 = GDelegateNextID w) ∧
  destroyed (Add t w).2 = destroyed w.
Proof.
  rewrite Add_eq. unfold AddInternal. cbn [TDelegate_GetHandle].
  rewrite GetHandle_instance_of. unfold IsValid.
  by destruct (Z.eqb_spec (GDelegateNextID w) 0) as [Hz|Hnz]; cbn.
Qed.


(** Each of the four [Add] operations appends exactly one entry, behind all
    the others: it holds the instance for the target, the owner is the object
    of a raw binding and [nullptr] otherwise, and its handle is the one
    returned.  The returned handle is always valid, also when the counter
    stands at [0]; it is the handle of the instance unless the counter stood
    at [0].  The delegate is bound afterwards, whether or not the target can
    be called. *)
Theorem Add_appends (t : Target) w :
  Entries (Add t w).2 =
    Entries w ++
      [mkEntry (Add t w).1 (Some (instance_of t (GDelegateNextID w))) (owner_of t)] ∧
  IsValid (Add t w).1 = true ∧
  (GDelegateNextID w ≠ 0 → (Add t w).1 = GDelegateNextID w) ∧
  IsBound (Add t w).2 = true ∧
  destroyed (Add t w).2 = destroyed w ∧
  trace (Add t w).2 = trace w.
Proof.
  rewrite Add_eq. unfold AddInternal. cbn [TDelegate_GetHandle].
  rewrite GetHandle_instance_of. unfold IsValid, IsBound.
  destruct (Z.eqb_spec (GDelegateNextID w) 0) as [Hz|Hnz]; cbn.
  - rewrite Hz. repeat split; try done. by destruct (Entries w).
  - repeat split; try done.
    + by apply negb_true_iff, Z.eqb_neq.
    + by destruct (Entries w).
Qed.

(** ** What a broadcast never does *)

Section NoAssertFail.

Variable call : Callee → Args → World Args → Outcome (World Args * Ret).
Hypothesis call_holds : ∀ c args w, call c args w ≠ AssertFail.

Lemma ExecuteIfBound_holds d args w :
  TDelegate_ExecuteIfBound RetDefault call d args w ≠ AssertFail.
Proof.
  unfold TDelegate_ExecuteIfBound.
  destruct (TDelegate_IsBound w d) eqn:Hb; [|done]. cbn [negb].
  destruct d as [i|]; [|done]. unfold Execute, call_target.
  cbn [TDelegate_IsBound] in Hb. rewrite Hb. apply call_holds.
Qed.

Lemma dispatch_holds Snapshot args w :
  dispatch RetDefault moved_from call Snapshot args w ≠ AssertFail.
Proof.
  revert args w. induction Snapshot as [|E rest IH]; intros args w; [done|].
  cbn [dispatch].
  pose proof (ExecuteIfBound_holds (Delegate E) args w) as HE.
  destruct (TDelegate_ExecuteIfBound RetDefault call (Delegate E) args w)
    as [[w1 r]| |]; [apply IH | done | done].
Qed.

Lemma Broadcast_holds args w : Broadcast RetDefault moved_from call args w ≠ AssertFail.
Proof.
  unfold Broadcast. destruct (Entries w) as [|E rest] eqn:HE; [done|].
  rewrite <- HE. pose proof (dispatch_holds (Entries w) args w) as Hd.
  by destruct (dispatch RetDefault moved_from call (Entries w) args w).
Qed.

Lemma do_actions_hold acts w : do_actions RetDefault moved_from call acts w ≠ AssertFail.
Proof.
  revert w. induction acts as [|a acts IH]; intros w; [done|].
  cbn [do_actions].
  assert (do_action RetDefault moved_from call a w ≠ AssertFail) as Ha.
  { destruct a; try done. apply Broadcast_holds. }
  destruct (do_action RetDefault moved_from call a w) as [w1| |]; [apply IH | done | done].
Qed.

End NoAssertFail.

Lemma invoke_holds fuel c args w :
  invoke RetDefault moved_from handler fuel c args w ≠ AssertFail.
Proof.
  revert c args w. induction fuel as [|fuel IH]; intros c args w; [done|].
  rewrite invoke_S.
  pose proof (do_actions_hold _ IH (handler c args w).1 w) as Ha.
  by destruct (do_actions RetDefault moved_from (invoke RetDefault moved_from handler fuel)
                 (handler c args w).1 w).
Qed.

(** The contract of [Execute] is never broken from inside: whatever the
    handlers do and however deep they nest, no [assert] of [Execute] fails in
    a broadcast or in any sequence of operations on the multicast delegate.
    Called directly on a delegate that is not bound, [TDelegate::Execute]
    does fail its [assert], without calling anything. *)
Theorem Broadcast_never_fails_assert :
  (∀ fuel args w,
     Broadcast RetDefault moved_from (invoke RetDefault moved_from handler fuel) args w ≠ AssertFail) ∧
  (∀ fuel acts w,
     do_actions RetDefault moved_from (invoke RetDefault moved_from handler fuel) acts w ≠ AssertFail) ∧
  (∀ (call : Callee → Args → World Args → Outcome (World Args * Ret)) d args w,
     TDelegate_IsBound w d = false →
     TDelegate_Execute call d args w = AssertFail).
Proof.
  split; [|split].
  - intros fuel args w. apply Broadcast_holds, invoke_holds.
  - intros fuel acts w. apply do_actions_hold, invoke_holds.
  - intros call d args w Hb. unfold TDelegate_Execute. by rewrite Hb.
Qed.

(** Every call made while a broadcast runs, by its own loop, by a nested
    broadcast or to an entry registered meanwhile, goes to an instance that
    was safe to execute already when the broadcast was called: no call goes
    through a null pointer, an empty [std::function] or an expired
    [weak_ptr]; and no object comes back to life. *)
Theorem Broadcast_calls_only_safe fuel args w w' :
  Broadcast RetDefault moved_from (invoke RetDefault moved_from handler fuel) args w = Done w' →
  destroyed w ⊆ destroyed w' ∧
  ∃ evs, trace w' = trace w ++ evs ∧
         ∀ i args0, (i, args0) ∈ evs → IsSafeToExecute w i = true.
Proof.
  intros (Hd & evs & Ht & Hs)%Broadcast_grows_safely. split; [done|].
  exists evs. split; [done|]. intros i args0 Hin. by apply (Hs (i, args0)).
Qed.


(** ** What a broadcast does to the sequence of entries *)

Lemma bound_entries_ext w w' (l : list FEntry) :
  destroyed w = destroyed w' → bound_entries w l = bound_entries w' l.
Proof.
  intros Hd. unfold bound_entries. apply list_filter_iff. intros E.
  by rewrite (TDelegate_IsBound_ext w w').
Qed.

Lemma TDelegate_IsBound_earlier w w' d :
  destroyed w ⊆ destroyed w' →
  TDelegate_IsBound w' d = true → TDelegate_IsBound w d = true.
Proof. intros Hd. destruct d as [i|]; [by apply IsSafeToExecute_earlier | done]. Qed.

(** Filtering by a later world absorbs filtering by an earlier one. *)
Lemma bound_entries_later w w' (l : list FEntry) :
  destroyed w ⊆ destroyed w' →
  bound_entries w' (bound_entries w l) = bound_entries w' l.
Proof.
  intros Hd. unfold bound_entries. rewrite list_filter_filter.
  apply list_filter_iff. intros E. split; [by intros [? _]|].
  intros Hb. split; [done|]. by eapply TDelegate_IsBound_earlier.
Qed.

Lemma Entries_compact w : Entries (compact w) = bound_entries w (Entries w).
Proof.
  unfold compact, bound_entries. cbn [Entries set_Entries].
  apply erase_remove_if_filter. intros E. apply negb_false_iff.
Qed.

Lemma keeps_bound_entries_frame w w' :
  (handles_fresh w → handles_fresh w') →
  destroyed w ⊆ destroyed w' → generated w' = generated w →
  Entries w' = Entries w →
  keeps_bound_entries w w'.
Proof.
  intros Hf Hd Hg HE Hfresh. split; [by apply Hf|]. split; [done|].
  split; [lia|]. intros _. exists []. rewrite app_nil_r, HE. split; [|done].
  split; [by rewrite Hg, Z.sub_diag | by intros E ?%elem_of_nil].
Qed.

Lemma registered_since_trans w1 w2 w3 (added1 added2 : list FEntry) :
  generated w1 ≤ generated w2 ≤ generated w3 →
  registered_since w1 w2 added1 → registered_since w2 w3 added2 →
  registered_since w1 w3 (added1 ++ added2).
Proof.
  intros Hg [Hh1 Hi1] [Hh2 Hi2]. split.
  - rewrite fmap_app, Hh1, Hh2.
    replace (generated w3 - generated w1)
      with ((generated w2 - generated w1) + (generated w3 - generated w2)) by lia.
    rewrite seqZ_app by lia. do 2 f_equal. lia.
  - intros E [?|?]%elem_of_app; auto.
Qed.

Lemma keeps_bound_entries_trans w1 w2 w3 :
  keeps_bound_entries w1 w2 → keeps_bound_entries w2 w3 →
  keeps_bound_entries w1 w3.
Proof.
  intros H12 H23 Hf1. destruct (H12 Hf1) as (Hf2 & Hd1 & Hg1 & Hadd1).
  destruct (H23 Hf2) as (Hf3 & Hd2 & Hg2 & Hadd2).
  split; [done|]. split; [set_solver|]. split; [lia|]. intros Hle.
  destruct Hadd1 as (added1 & Hreg1 & H1); [lia|].
  destruct (Hadd2 Hle) as (added2 & Hreg2 & H2).
  exists (added1 ++ added2). split; [by eapply registered_since_trans|].
  rewrite H2. unfold bound_entries in *.
  rewrite app_assoc, !(filter_app _ _ added2). f_equal.
  change (bound_entries w3 (Entries w2) = bound_entries w3 (Entries w1 ++ added1)).
  rewrite <- (bound_entries_later w2 w3 (Entries w2)) by done.
  rewrite <- (bound_entries_later w2 w3 (Entries w1 ++ added1)) by done.
  unfold bound_entries. by rewrite H1.
Qed.

(** A registration draws one handle and appends the entry that carries it. *)
Lemma Add_fresh (t : Target) w :
  handles_fresh w → generated w + 1 ≤ UINT64_MODULUS - 1 →
  generated (Add t w).2 = generated w + 1 ∧
  Entries (Add t w).2 = Entries w ++ [entry_of t (generated w + 1)].
Proof.
  intros (Hg & Hc & _) Hle.
  rewrite Z.mod_small in Hc by (unfold UINT64_MODULUS in *; lia).
  rewrite Add_eq. unfold AddInternal. cbn [TDelegate_GetHandle].
  rewrite GetHandle_instance_of. unfold IsValid.
  destruct (Z.eqb_spec (GDelegateNextID w) 0) as [Hz|Hnz]; cbn; [lia|].
  split; [done|]. rewrite Hc. by replace (1 + generated w) with (generated w + 1) by lia.
Qed.

Lemma Add_generated (t : Target) w : generated w + 1 ≤ generated (Add t w).2.
Proof.
  rewrite Add_eq. unfold AddInternal.
  destruct (negb (IsValid _)); cbn; lia.
Qed.

Lemma Add_keeps_bound_entries (t : Target) w : keeps_bound_entries w (Add t w).2.
Proof.
  intros Hfresh. split.
  { rewrite Add_eq.
    apply handles_fresh_AddInternal; [apply GetHandle_instance_of | done]. }
  destruct (Add_fields t w) as (_ & _ & Hd).
  pose proof (Add_generated t w) as Hgen.
  split; [by rewrite Hd|]. split; [lia|]. intros Hle.
  destruct (Add_fresh t w Hfresh) as [Hg HE]; [lia|].
  exists [entry_of t (generated w + 1)]. rewrite HE. split; [|done]. split.
  - rewrite Hg. replace (generated w + 1 - generated w) with 1 by lia.
    by rewrite seqZ_cons, seqZ_nil.
  - intros E ->%list_elem_of_singleton. by exists t.
Qed.

Lemma prim_keeps_bound_entries (a : Action Args) w :
  removes a = false ∧ draws_elsewhere a = false → is_broadcast a = false →
  keeps_bound_entries w (prim a w).
Proof.
  intros [Hr He] Hb. destruct a; try done; cbn [prim].
  - apply (Add_keeps_bound_entries (ToStatic Fn)).
  - apply (Add_keeps_bound_entries (ToRaw InObjPtr InMethod)).
  - apply (Add_keeps_bound_entries (ToWeak InWeak InMethod)).
  - apply (Add_keeps_bound_entries (ToLambda InFunc)).
  - apply keeps_bound_entries_frame; try done. cbn. set_solver.
Qed.

Lemma compact_keeps_bound_entries w : keeps_bound_entries w (compact w).
Proof.
  intros Hfresh. split.
  { apply handles_fresh_sublist; [apply erase_remove_if_sublist | done]. }
  split; [done|]. split; [done|]. intros _. exists [].
  rewrite app_nil_r, Entries_compact. split; [|by apply bound_entries_later].
  split; [cbn; by rewrite Z.sub_diag | by intros E ?%elem_of_nil].
Qed.

(** *** No registration is lost *)

Lemma keeps_entry_grow E w w' (l : list FEntry) :
  destroyed w ⊆ destroyed w' → generated w ≤ generated w' →
  Entries w' = Entries w ++ l → keeps_entry E w w'.
Proof.
  intros Hd Hg HE. split; [done|]. split; [done|]. intros Hin _.
  rewrite HE. apply elem_of_app. by left.
Qed.

Lemma keeps_entry_trans E w1 w2 w3 :
  keeps_entry E w1 w2 → keeps_entry E w2 w3 → keeps_entry E w1 w3.
Proof.
  intros (Hd1 & Hg1 & H1) (Hd2 & Hg2 & H2). split; [set_solver|].
  split; [lia|]. intros Hin Hb. apply H2; [|done]. apply H1; [done|].
  by eapply TDelegate_IsBound_earlier.
Qed.

Lemma prim_add_action (t : Target) w : prim (add_action t) w = (Add t w).2.
Proof. by destruct t. Qed.

Lemma prim_keeps_entry E (a : Action Args) w :
  removes a = false ∧ draws_elsewhere a = false → is_broadcast a = false →
  keeps_entry E w (prim a w).
Proof.
  intros [Hr _] Hb.
  assert (∀ t, keeps_entry E w (Add t w).2) as Hadd.
  { intros t. destruct (Add_fields t w) as (HE & _ & Hd).
    pose proof (Add_generated t w).
    eapply keeps_entry_grow; [by rewrite Hd | lia | exact HE]. }
  destruct a; try done; cbn [prim].
  - apply (Hadd (ToStatic Fn)).
  - apply (Hadd (ToRaw InObjPtr InMethod)).
  - apply (Hadd (ToWeak InWeak InMethod)).
  - apply (Hadd (ToLambda InFunc)).
  - apply keeps_entry_grow with (l := []); cbn; [done | lia | by rewrite app_nil_r].
  - apply keeps_entry_grow with (l := []); cbn;
      [set_solver | done | by rewrite app_nil_r].
Qed.

Lemma compact_keeps_entry E w : keeps_entry E w (compact w).
Proof.
  split; [done|]. split; [done|]. intros Hin Hb.
  rewrite Entries_compact. apply list_elem_of_filter. split; [|done].
  by rewrite <- Hb.
Qed.

Lemma do_actions_app
    (call : Callee → Args → World Args → Outcome (World Args * Ret))
    (l1 l2 : list (Action Args)) w :
  do_actions RetDefault moved_from call (l1 ++ l2) w =
    do_actions RetDefault moved_from call l1 w ≫=
    do_actions RetDefault moved_from call l2.
Proof.
  revert w. induction l1 as [|a l1 IH]; intros w; [done|]. cbn [app do_actions].
  destruct (do_action RetDefault moved_from call a w); cbn; [apply IH | done | done].
Qed.

Section Registrations.

Hypothesis never_removes :
  ∀ c args w,
    Forall (λ a, removes a = false ∧ draws_elsewhere a = false) (handler c args w).1.

Lemma invoke_keeps_entry E fuel c args w w' r :
  invoke RetDefault moved_from handler fuel c args w = Done (w', r) →
  keeps_entry E w w'.
Proof.
  apply invoke_R
    with (ok := λ a, removes a = false ∧ draws_elsewhere a = false).
  - intros w0. by apply keeps_entry_grow with (l := []); [..|rewrite app_nil_r].
  - apply keeps_entry_trans.
  - intros i args0 w0 _.
    by apply keeps_entry_grow with (l := []); [..|rewrite app_nil_r].
  - apply prim_keeps_entry.
  - apply compact_keeps_entry.
  - apply never_removes.
Qed.

Lemma do_actions_keep_entry E fuel acts w w' :
  Forall (λ a, removes a = false ∧ draws_elsewhere a = false) acts →
  do_actions RetDefault moved_from (invoke RetDefault moved_from handler fuel) acts w
    = Done w' →
  keeps_entry E w w'.
Proof.
  apply do_actions_R; try apply invoke_keeps_entry.
  - intros w0. by apply keeps_entry_grow with (l := []); [..|rewrite app_nil_r].
  - apply keeps_entry_trans.
  - intros i args0 w0 _.
    by apply keeps_entry_grow with (l := []); [..|rewrite app_nil_r].
  - apply prim_keeps_entry.
  - apply compact_keeps_entry.
Qed.

Lemma dispatch_keeps_entry E fuel Snapshot args w w' :
  dispatch RetDefault moved_from (invoke RetDefault moved_from handler fuel)
    Snapshot args w = Done w' →
  keeps_entry E w w'.
Proof.
  apply dispatch_R; try apply invoke_keeps_entry.
  - intros w0. by apply keeps_entry_grow with (l := []); [..|rewrite app_nil_r].
  - apply keeps_entry_trans.
  - intros i args0 w0 _.
    by apply keeps_entry_grow with (l := []); [..|rewrite app_nil_r].
Qed.

Lemma dispatch_stays_fresh fuel Snapshot args w w' :
  dispatch RetDefault moved_from (invoke RetDefault moved_from handler fuel)
    Snapshot args w = Done w' →
  stays_fresh w w'.
Proof.
  apply run_dispatch_R with (ok := λ _, True); unfold stays_fresh; auto.
  - intros a w0 _ _. apply prim_stays_fresh.
  - intros w0. apply handles_fresh_sublist, erase_remove_if_sublist.
  - intros c args0 w0. by apply Forall_true.
Qed.

(** A handler that registers [t] leaves the entry of [t] in the delegate,
    under a handle drawn while it ran, unless the target of [t] is gone. *)
Lemma invoke_registers (t : Target) fuel c args w w' r :
  handles_fresh w → generated w' ≤ UINT64_MODULUS - 1 →
  add_action t ∈ (handler c args w).1 →
  invoke RetDefault moved_from handler fuel c args w = Done (w', r) →
  ∃ h, generated w < h ≤ generated w' ∧
       (TDelegate_IsBound w' (Some (instance_of t h)) = true →
        entry_of t h ∈ Entries w').
Proof.
  destruct fuel as [|fuel]; [done|]. rewrite invoke_S.
  pose proof (never_removes c args w) as Hok.
  intros Hfresh Hle (l1 & l2 & Hacts)%list_elem_of_split Hrun.
  rewrite Hacts in Hrun, Hok. bind_inv Hrun. rename a into w2.
  injection Hrun as Hw2 _. subst w2.
  rewrite do_actions_app in Hrun_1. bind_inv Hrun_1. rename a into wa.
  cbn [do_actions] in Hrun_1. rewrite do_action_prim in Hrun_1 by by destruct t.
  cbn [mbind Outcome_bind] in Hrun_1. rewrite prim_add_action in Hrun_1.
  apply Forall_app in Hok as [Hok1 Hok2]. apply Forall_cons in Hok2 as [_ Hok2].
  pose proof (do_actions_keep_entry (entry_of t 0) _ _ _ _ Hok1 Hrun_1_1)
    as (_ & Hg1 & _).
  pose proof (do_actions_stay_fresh _ _ _ _ Hrun_1_1 Hfresh) as Hfresha.
  pose proof (Add_generated t wa) as Hgb.
  pose proof (do_actions_keep_entry (entry_of t (generated wa + 1)) _ _ _ _
                Hok2 Hrun_1) as (_ & Hg2 & Hin).
  destruct (Add_fresh t wa Hfresha) as [Hg HE]; [lia|].
  exists (generated wa + 1). split; [lia|]. intros Hb. apply Hin; [|done].
  rewrite HE. apply elem_of_app. right. by left.
Qed.

End Registrations.



Lemma same_bound_entries_frame w w' :
  destroyed w ⊆ destroyed w' → Entries w' = Entries w →
  same_bound_entries w w'.
Proof. intros Hd HE. split; [done|]. by rewrite HE. Qed.

Lemma same_bound_entries_trans w1 w2 w3 :
  same_bound_entries w1 w2 → same_bound_entries w2 w3 →
  same_bound_entries w1 w3.
Proof.
  intros (Hd1 & H1) (Hd2 & H2). split; [set_solver|]. rewrite H2.
  rewrite <- (bound_entries_later w2 w3 (Entries w2)) by done.
  rewrite <- (bound_entries_later w2 w3 (Entries w1)) by done.
  by rewrite H1.
Qed.

(** Observers that neither register nor remove: when the broadcast returns
    the delegate holds exactly the entries it held that are still bound, in
    their order. *)
Theorem Broadcast_evicts_only_unbound fuel args w w' :
  (∀ c args0 w0,
     Forall (λ a, removes a = false ∧ adds a = false) (handler c args0 w0).1) →
  Broadcast RetDefault moved_from (invoke RetDefault moved_from handler fuel) args w = Done w' →
  Entries w' = bound_entries w' (Entries w).
Proof.
  intros Hnever Hrun. destruct (Entries w) as [|E0 rest] eqn:Hentries.
  { unfold Broadcast in Hrun. rewrite Hentries in Hrun. injection Hrun as <-.
    by rewrite Hentries. }
  rewrite <- Hentries. rewrite Broadcast_nonempty in Hrun by (by rewrite Hentries).
  bind_inv Hrun. rename a into w3. injection Hrun as <-.
  assert (same_bound_entries w w3) as (_ & Hkeep).
  { revert Hrun_1.
    apply run_dispatch_R with (ok := λ a, removes a = false ∧ adds a = false).
    - intros w0. by apply same_bound_entries_frame.
    - apply same_bound_entries_trans.
    - intros i args0 w0 _. by apply same_bound_entries_frame.
    - intros a w0 [Hr Ha] Hb. destruct a; try discriminate; cbn [prim];
        (apply same_bound_entries_frame; [cbn; set_solver | done]).
    - intros w0. split; [done|]. rewrite Entries_compact.
      by apply bound_entries_later.
    - apply Hnever. }
  by rewrite Entries_compact, !(bound_entries_ext (compact w3) w3).
Qed.

(** ** The order of the handles *)

Lemma StronglySorted_sublist {A : Type} (R : relation A) (l1 l2 : list A) :
  l1 `sublist_of` l2 → StronglySorted R l2 → StronglySorted R l1.
Proof.
  induction 1 as [|x l1 l2 Hsub IH|x l1 l2 Hsub IH]; [done|..];
    rewrite !StronglySorted_cons; intros [Hx Hl2].
  - split; [|by apply IH]. rewrite Forall_forall in Hx |- *.
    intros y Hy. apply Hx. by eapply elem_of_sublist.
  - by apply IH.
Qed.

Lemma handles_ordered_sublist w (l : list FEntry) :
  l `sublist_of` Entries w →
  handles_ordered w → handles_ordered (set_Entries l w).
Proof.
  intros Hsub Hord Hle. destruct (Hord Hle) as [Hsorted Hinst]. split.
  - apply (StronglySorted_sublist _ _ (handles w)); [by apply fmap_sublist | done].
  - intros E HE. apply Hinst. by eapply elem_of_sublist.
Qed.

Lemma handles_ordered_AddInternal i InOwner w :
  Instance_GetHandle i = GDelegateNextID w →
  handles_fresh w → handles_ordered w →
  handles_ordered (AddInternal (Some i) InOwner (GenerateNewID w).2).2.
Proof.
  intros Hi (Hg & Hc & Hfresh) Hord. unfold AddInternal. cbn [TDelegate_GetHandle].
  rewrite Hi. unfold IsValid.
  destruct (Z.eqb_spec (GDelegateNextID w) 0) as [Hz|Hnz];
    unfold handles_ordered; cbn; intros Hle.
  - rewrite Z.mod_small in Hc by (unfold UINT64_MODULUS in *; lia). lia.
  - rewrite Z.mod_small in Hc by (unfold UINT64_MODULUS in *; lia).
    destruct Hfresh as [_ Hbound]; [unfold UINT64_MODULUS in *; lia|].
    destruct (Hord ltac:(unfold UINT64_MODULUS in *; lia)) as [Hsorted Hinst].
    split.
    + unfold handles. cbn. rewrite fmap_app. apply StronglySorted_app_2.
      * intros h1 h2 Hh1 ->%list_elem_of_singleton. apply Hbound in Hh1.
        cbn. lia.
      * done.
      * repeat constructor.
    + intros E [HE | ->%list_elem_of_singleton]%elem_of_app; [by apply Hinst|].
      by exists i.
Qed.

Lemma prim_stays_ordered (a : Action Args) w : stays_ordered w (prim a w).
Proof.
  intros [Hfresh Hord]. split; [by apply prim_stays_fresh|].
  assert (∀ t, handles_ordered (Add t w).2) as Hadd.
  { intros t. rewrite Add_eq.
    apply handles_ordered_AddInternal; [apply GetHandle_instance_of | done..]. }
  destruct a; cbn [prim]; try done.
  - apply (Hadd (ToStatic Fn)).
  - apply (Hadd (ToRaw InObjPtr InMethod)).
  - apply (Hadd (ToWeak InWeak InMethod)).
  - apply (Hadd (ToLambda InFunc)).
  - unfold Remove. case_decide; [done|].
    apply handles_ordered_sublist; [apply erase_sublist | done].
  - unfold RemoveAll. destruct (InOwner =? 0); [done|].
    apply handles_ordered_sublist; [apply erase_remove_if_sublist | done].
  - apply handles_ordered_sublist; [apply sublist_nil_l | done].
  - intros Hle. apply Hord. cbn in Hle. lia.
Qed.

Lemma do_actions_stay_ordered fuel acts w w' :
  do_actions RetDefault moved_from (invoke RetDefault moved_from handler fuel) acts w = Done w' →
  stays_ordered w w'.
Proof.
  apply run_actions_R with (ok := λ _, True); unfold stays_ordered; auto.
  - intros a w0 _ _. apply prim_stays_ordered.
  - intros w0 [Hfresh Hord]. split.
    + apply handles_fresh_sublist; [apply erase_remove_if_sublist | done].
    + apply handles_ordered_sublist; [apply erase_remove_if_sublist | done].
  - intros c args w0. by apply Forall_true.
  - by apply Forall_true.
Qed.

(** In every state that a multicast delegate reaches while at most
    [2^64 - 1] handles have been drawn, the stored handles grow strictly along
    the sequence, so an earlier registration has the smaller handle; and every
    entry holds an instance, whose handle is the valid handle of the entry. *)
Theorem Entries_ordered_by_handle w :
  reachable RetDefault moved_from handler w →
  generated w ≤ UINT64_MODULUS - 1 →
  StronglySorted Z.lt (handles w) ∧
  ∀ E, E ∈ Entries w →
    IsValid (Handle E) = true ∧
    ∃ i, Delegate E = Some i ∧ Instance_GetHandle i = Handle E.
Proof.
  intros (w0 & fuel & acts & Hstart & Hrun) Hle.
  destruct (do_actions_stay_ordered _ _ _ _ Hrun) as [Hfresh Hord].
  { split; [by apply handles_fresh_start|]. intros _.
    destruct Hstart as (_ & _ & HE). unfold handles. rewrite HE.
    split; [constructor|]. by intros E ?%elem_of_nil. }
  destruct (Hord Hle) as [Hsorted Hinst]. split; [done|]. intros E HE.
  split; [|by apply Hinst].
  destruct Hfresh as (_ & _ & Hfresh). destruct (Hfresh Hle) as [_ Hbound].
  assert (1 ≤ Handle E) as H1.
  { apply Hbound. unfold handles. by apply list_elem_of_fmap_2. }
  unfold IsValid. apply negb_true_iff, Z.eqb_neq. lia.
Qed.

(** ** Registration and removal together *)

Lemma find_if_snoc {A : Type} (p : A → bool) (l : list A) (x : A) :
  Forall (λ y, p y = false) l → p x = true →
  find_if p (l ++ [x]) = length l.
Proof.
  intros Hl Hx. induction Hl as [|y l Hy _ IH]; simpl; [by rewrite Hx|].
  by rewrite Hy, IH.
Qed.

(** Registering a target and then removing the handle that was returned
    leaves the sequence of entries as it was, as long as fewer than
    [2^64 - 1] handles have been drawn. *)
Theorem Add_then_Remove (t : Target) w :
  reachable RetDefault moved_from handler w →
  generated w < UINT64_MODULUS - 1 →
  Entries (Remove (Add t w).1 (Add t w).2) = Entries w.
Proof.
  intros (Hg & Hc & Hfresh)%reachable_handles_fresh Hlt.
  destruct Hfresh as [_ Hbound]; [lia|].
  rewrite Z.mod_small in Hc by (unfold UINT64_MODULUS in *; lia).
  destruct (Add_fields t w) as (HE & Hh & _). rewrite Hh in * by lia.
  unfold Remove. rewrite HE.
  rewrite find_if_snoc; cbn [Handle].
  - rewrite length_app. cbn [length]. case_decide; [lia|].
    cbn [Entries set_Entries]. rewrite erase_middle. apply app_nil_r.
  - apply Forall_forall. intros E HinE. apply Z.eqb_neq. intros Heq.
    assert (Handle E ∈ handles w) as Hin%Hbound
      by (unfold handles; by apply list_elem_of_fmap_2).
    lia.
  - apply Z.eqb_refl.
Qed.

(** ** Removals compose *)

Lemma erase_remove_if_idempotent {A : Type} (p : A → bool) (l : list A) :
  erase_remove_if p (erase_remove_if p l) = erase_remove_if p l.
Proof.
  induction l as [|x l IH]; [done|]. cbn [erase_remove_if].
  destruct (p x) eqn:Hx; [done|]. cbn [erase_remove_if]. by rewrite Hx, IH.
Qed.

Lemma erase_remove_if_comm {A : Type} (p q : A → bool) (l : list A) :
  erase_remove_if p (erase_remove_if q l) =
  erase_remove_if q (erase_remove_if p l).
Proof.
  induction l as [|x l IH]; [done|]. cbn [erase_remove_if].
  destruct (p x) eqn:Hp, (q x) eqn:Hq; cbn [erase_remove_if];
    rewrite ?Hp, ?Hq, ?IH; done.
Qed.

(** [RemoveAll] of an owner a second time changes nothing, and the order of
    two [RemoveAll] does not matter. *)
Theorem RemoveAll_idempotent_commutes (a b : Z) w :
  RemoveAll a (RemoveAll a w) = RemoveAll a w ∧
  RemoveAll a (RemoveAll b w) = RemoveAll b (RemoveAll a w).
Proof.
  unfold RemoveAll. split.
  - destruct (a =? 0); [done|]. unfold set_Entries. cbn.
    by rewrite erase_remove_if_idempotent.
  - destruct (a =? 0), (b =? 0); try done. unfold set_Entries. cbn.
    by rewrite erase_remove_if_comm.
Qed.

Lemma erase_find_if {A : Type} (p : A → bool) (l : list A) :
  (if decide (find_if p l = length l) then l else erase (find_if p l) l)
  = erase_first p l.
Proof.
  induction l as [|x l IH]; [done|]. cbn [find_if erase_first length].
  destruct (p x) eqn:Hx.
  - case_decide; [done|]. unfold erase. cbn. by rewrite drop_0.
  - destruct (decide (find_if p l = length l)) as [Hf|Hf].
    + rewrite decide_True by lia. by rewrite <- IH.
    + rewrite decide_False by lia. rewrite <- IH. by unfold erase.
Qed.

Lemma Remove_erase_first h w :
  Remove h w = set_Entries (erase_first (λ E, Handle E =? h) (Entries w)) w.
Proof.
  unfold Remove. rewrite <- erase_find_if. case_decide; [|done]. by destruct w.
Qed.

Lemma erase_first_comm {A : Type} (p q : A → bool) (l : list A) :
  (∀ x, p x = true → q x = true → False) →
  erase_first p (erase_first q l) = erase_first q (erase_first p l).
Proof.
  intros Hpq. induction l as [|x l IH]; [done|]. cbn [erase_first].
  destruct (p x) eqn:Hp, (q x) eqn:Hq; cbn [erase_first];
    rewrite ?Hp, ?Hq, ?IH; try done. by destruct (Hpq x).
Qed.

Lemma erase_first_unique {A : Type} (p : A → bool) (l : list A) :
  (∀ l1 x l2, l = l1 ++ x :: l2 → p x = true → Forall (λ y, p y = false) l2) →
  erase_first p (erase_first p l) = erase_first p l.
Proof.
  induction l as [|x l IH]; [done|]. intros Huniq. cbn [erase_first].
  destruct (p x) eqn:Hx.
  - pose proof (Huniq [] x l eq_refl Hx) as Hl. clear -Hl.
    induction Hl as [|y l Hy _ IH]; [done|]. cbn [erase_first].
    by rewrite Hy, IH.
  - cbn [erase_first]. rewrite Hx, IH; [done|].
    intros l1 y l2 -> Hy. by apply (Huniq (x :: l1) y l2).
Qed.

(** Two [Remove] give the same delegate in either order; and when the stored
    handles are pairwise distinct a second [Remove] of the same handle changes
    nothing. *)
Theorem Remove_commutes (h1 h2 : FDelegateHandle) w :
  Remove h1 (Remove h2 w) = Remove h2 (Remove h1 w) ∧
  (NoDup (handles w) → Remove h1 (Remove h1 w) = Remove h1 w).
Proof.
  rewrite !Remove_erase_first. unfold set_Entries. cbn. split.
  - destruct (decide (h1 = h2)) as [->|Hne]; [done|].
    rewrite erase_first_comm; [done|]. intros E H1 H2. lia.
  - intros Hnd. rewrite erase_first_unique; [done|].
    intros l1 E l2 HE Hh. unfold handles in Hnd.
    rewrite HE, fmap_app, fmap_cons in Hnd.
    apply NoDup_app in Hnd as (_ & _ & Hnd). apply NoDup_cons in Hnd as [Hnot _].
    apply Forall_forall. intros E' HE'. apply Z.eqb_neq. intros Heq.
    apply Hnot. apply Z.eqb_eq in Hh. rewrite Hh, <- Heq.
    by apply list_elem_of_fmap_2.
Qed.

(** ** A handler that always broadcasts again *)

(** If the first entry of the delegate is safe, does not depend on the
    lifetime of an object, and its handler starts by broadcasting the same
    arguments again, then the broadcast does not come back: every bound on the
    nesting of calls is exceeded. *)
Theorem Broadcast_unbounded_nesting fuel args w E rest i :
  Entries w = E :: rest →
  Delegate E = Some i →
  weak_target i = None →
  IsSafeToExecute w i = true →
  (∀ w0, ∃ more, (handler (callee_of i) args w0).1 = ActBroadcast args :: more) →
  Broadcast RetDefault moved_from (invoke RetDefault moved_from handler fuel) args w = OutOfFuel.
Proof.
  intros Hentries Hi Hweak Hsafe Hloops. revert w Hentries Hsafe.
  induction fuel as [|fuel IH]; intros w Hentries Hsafe;
    rewrite Broadcast_nonempty by (by rewrite Hentries);
    rewrite Hentries; cbn [dispatch]; unfold TDelegate_ExecuteIfBound;
    rewrite Hi; cbn [TDelegate_IsBound]; rewrite Hsafe; cbn [negb];
    unfold Execute, call_target; rewrite Hsafe; [done|].
  rewrite invoke_S. destruct (Hloops (record_call i args w)) as [more ->].
  cbn [do_actions do_action]. rewrite IH; [done | done |].
  eapply IsSafeToExecute_later; [|exact Hsafe]. intros obj Hobj. congruence.
Qed.

(** ** Delegates whose targets are gone *)

Lemma dispatch_unbound
    (call : Callee → Args → World Args → Outcome (World Args * Ret))
    (Snapshot : list FEntry) args w :
  (∀ E, E ∈ Snapshot → TDelegate_IsBound w (Delegate E) = false) →
  dispatch RetDefault moved_from call Snapshot args w = Done w.
Proof.
  revert args. induction Snapshot as [|E rest IH]; intros args Hall; [done|].
  cbn [dispatch].
  unfold TDelegate_ExecuteIfBound. rewrite (Hall E) by left. cbn.
  apply IH. intros E' HE'. apply Hall. by right.
Qed.

Lemma erase_remove_if_all {A : Type} (p : A → bool) (l : list A) :
  (∀ x, x ∈ l → p x = true) → erase_remove_if p l = [].
Proof.
  induction l as [|x l IH]; intros Hall; [done|]. cbn [erase_remove_if].
  rewrite (Hall x) by left. apply IH. intros y Hy. apply Hall. by right.
Qed.

(** A broadcast to a delegate none of whose entries is bound calls nothing,
    whatever the targets would do, and leaves the delegate empty; the rest
    of the world stays as it is. *)
Theorem Broadcast_all_unbound
    (call : Callee → Args → World Args → Outcome (World Args * Ret)) args w :
  (∀ E, E ∈ Entries w → TDelegate_IsBound w (Delegate E) = false) →
  Broadcast RetDefault moved_from call args w = Done (Clear w).
Proof.
  intros Hall. destruct (Entries w) as [|E0 rest] eqn:Hentries.
  - unfold Broadcast. rewrite Hentries. f_equal. destruct w. cbn in *. by subst.
  - rewrite <- Hentries in Hall.
    rewrite Broadcast_nonempty, dispatch_unbound by (done || by rewrite Hentries).
    cbn [mbind Outcome_bind]. unfold compact, Clear. do 2 f_equal.
    apply erase_remove_if_all. intros E HE. by rewrite (Hall E HE).
Qed.

Lemma Broadcast_Done_all_bound
    (call : Callee → Args → World Args → Outcome (World Args * Ret)) args w w' E :
  Broadcast RetDefault moved_from call args w = Done w' →
  E ∈ Entries w' → TDelegate_IsBound w' (Delegate E) = true.
Proof.
  intros Hrun Hin. destruct (Entries w) as [|E0 rest0] eqn:Hentries.
  - unfold Broadcast in Hrun. rewrite Hentries in Hrun. injection Hrun as <-.
    rewrite Hentries in Hin. by apply elem_of_nil in Hin.
  - rewrite Broadcast_nonempty in Hrun by (by rewrite Hentries).
    bind_inv Hrun. injection Hrun as <-.
    by apply compact_all_bound in Hin as [_ ?].
Qed.


(** As long as fewer than [2^64 - 1] handles have been drawn, a registration
    returns the number of its draw: a handle that no entry of the delegate
    carries and that is larger than all of theirs, so a handle kept from an
    entry that has been removed never names a later one. *)
Theorem Add_returns_new_handle (t : Target) w :
  reachable RetDefault moved_from handler w →
  generated w < UINT64_MODULUS - 1 →
  (Add t w).1 = generated w + 1 ∧
  generated (Add t w).2 = generated w + 1 ∧
  ∀ h, h ∈ handles w → h < (Add t w).1.
Proof.
  intros (Hg & Hc & Hfresh)%reachable_handles_fresh Hlt.
  destruct Hfresh as [_ Hbound]; [lia|].
  rewrite Z.mod_small in Hc by (unfold UINT64_MODULUS in *; lia).
  destruct (Add_fields t w) as (_ & Hh & _). rewrite Hh by lia.
  split; [lia|]. split.
  - rewrite Add_eq. unfold AddInternal. cbn [TDelegate_GetHandle].
    rewrite GetHandle_instance_of. unfold IsValid.
    destruct (Z.eqb_spec (GDelegateNextID w) 0); [lia|done].
  - intros h Hin%Hbound. lia.
Qed.

End Properties.

(** * The properties on the sample programs *)

(** ** Handles *)

Lemma GDelegateNextID_draw (w : World DemoArgs) :
  GDelegateNextID (draw w) = (GDelegateNextID w + 1) mod UINT64_MODULUS.
Proof. reflexivity. Qed.

Lemma GDelegateNextID_iter (n : N) (w : World DemoArgs) :
  GDelegateNextID (N.iter n draw w) mod UINT64_MODULUS =
    (GDelegateNextID w + Z.of_N n) mod UINT64_MODULUS.
Proof.
  induction n as [|n IH] using N.peano_ind.
  - cbn [N.iter]. f_equal. lia.
  - rewrite N.iter_succ, GDelegateNextID_draw, Z.mod_mod by done.
    rewrite <- fetch_add_mod, IH, fetch_add_mod. f_equal. lia.
Qed.

Lemma GDelegateNextID_iter_succ (n : N) (w : World DemoArgs) :
  GDelegateNextID (N.iter (N.succ n) draw w) =
    (GDelegateNextID w + Z.of_N (N.succ n)) mod UINT64_MODULUS.
Proof.
  rewrite N.iter_succ, GDelegateNextID_draw.
  rewrite <- fetch_add_mod, GDelegateNextID_iter, fetch_add_mod. f_equal. lia.
Qed.

(** C4, the claim as stated fails: the counter is a [uint64_t], and the
    draw that follows [2^64 - 1] earlier ones returns the invalid handle [0]. *)
Lemma GenerateNewID_wraps_to_invalid :
  let w := N.iter 18446744073709551615 draw start in
  (GenerateNewID w).1 = 0 ∧ IsValid (GenerateNewID w).1 = false.
Proof.
  cbv zeta. cbn [GenerateNewID fst].
  change 18446744073709551615%N with (N.succ 18446744073709551614).
  rewrite GDelegateNextID_iter_succ. by split.
Qed.

Lemma demo_reachable : reachable tt copied idle demo.
Proof.
  exists start, 0%nat, [ActAddRaw 10 1; ActAddRaw 20 1].
  split; [by repeat split | reflexivity].
Defined.

Lemma handles_are_fresh_demo :
  (GenerateNewID demo).1 = 3 ∧ IsValid (GenerateNewID demo).1 = true ∧
  NoDup (handles demo).
Proof.
  destruct (handles_are_fresh DemoArgs unit tt copied idle) as (_ & Hnext & _ & Hnodup).
  destruct (Hnext demo demo_reachable ltac:(done)) as [Hh Hv].
  split; [exact Hh|]. split; [exact Hv|].
  exact (Hnodup demo demo_reachable ltac:(done)).
Defined.

(** ** Unicast delegate *)

(** C7, the claim as stated fails: a delegate bound to a weak target that has
    been destroyed is not bound, and its handle is still the valid handle of
    its instance, not [0]. *)
Lemma GetHandle_of_expired_binding :
  let '(d, w) := TDelegate_AddWeak 5 1 start in
  TDelegate_IsBound (destroy 5 w) d = false ∧
  TDelegate_GetHandle d = 1 ∧
  TDelegate_GetHandle d ≠ FDelegateHandle_default.
Proof. by repeat split. Qed.

(** ** Broadcast *)

(** C1, the claim as stated fails.  Both entries are safe when [Broadcast]
    is called; the first handler destroys the object of the second, which is
    then skipped.  And a handler that broadcasts again makes every entry be
    called twice before the outer call returns. *)
Lemma Broadcast_not_each_once :
  (∀ E, E ∈ Entries static_then_weak →
        TDelegate_IsBound static_then_weak (Delegate E) = true) ∧
  (∃ w', Broadcast tt copied (invoke tt copied killer 1) [100; 50; -50] static_then_weak = Done w' ∧
         trace w' = [(TStaticDelegateInstance 1 1, [100; 50; -50])]) ∧
  (∃ w', Broadcast tt copied (invoke tt copied rebroadcaster 2) [100; 50; -50] static_then_weak = Done w' ∧
         trace w' = [(TStaticDelegateInstance 1 1, [100; 50; -50]);
                     (TStaticDelegateInstance 1 1, [100; 50; -50]);
                     (TWeakDelegateInstance 5 1 2, [100; 50; -50]);
                     (TWeakDelegateInstance 5 1 2, [100; 50; -50])]).
Proof.
  split; [|split].
  - intros E HE. by each_entry HE.
  - eexists. split; reflexivity.
  - eexists. split; reflexivity.
Qed.

Lemma Broadcast_calls_each_once_demo :
  ∃ w' evs,
    Broadcast tt copied (invoke tt copied idle 1) [100; 50; -50] demo = Done w' ∧
    trace w' = trace demo ++ evs ∧
    called_in_order (Entries demo) evs ∧
    one_call_each [100; 50; -50] (Entries demo) evs.
Proof.
  destruct (Broadcast_calls_each_once DemoArgs unit tt copied idle 0
              [100; 50; -50] demo) as (w' & evs & Hrun & Ht & Hord & Hsame).
  - intros E HE. by each_entry HE.
  - intros E i args0 w0 _ _. constructor.
  - exists w', evs. split; [exact Hrun|]. split; [exact Ht|].
    split; [exact Hord | exact (Hsame eq_refl)].
Defined.


Lemma unsubscriber_registers_nothing c args0 (w0 : World DemoArgs) :
  Forall (λ a, registers 7 a = false) (unsubscriber c args0 w0).1.
Proof. unfold unsubscriber. repeat case_match; by repeat constructor. Qed.

Lemma unsubscriber_never_rebroadcasts : never_rebroadcast unsubscriber.
Proof. intros c args0 w0. unfold unsubscriber. repeat case_match; by repeat constructor. Qed.


Lemma idle_never_rebroadcasts : never_rebroadcast idle.
Proof. intros c args0 w0. constructor. Qed.


Lemma remover_never_rebroadcasts : never_rebroadcast remover.
Proof. intros c args0 w0. unfold remover. repeat case_match; by repeat constructor. Qed.


Lemma Broadcast_empty_start :
  Broadcast tt copied (invoke tt copied idle 1) [100; 50; -50] start = Done start.
Proof.
  exact (Broadcast_empty DemoArgs unit tt copied (invoke tt copied idle 1) [100; 50; -50]
           start eq_refl).
Defined.

(** ** The scenario of the demo

    [Logger] (object [10]) and [HUD] (object [20]) observe the health of a
    player.  Both are notified; [RemoveAll(&Log)] leaves [HUD] alone; [Logger]
    registers again, now after [HUD], and gets handle [3]; [Remove] of that
    handle leaves [HUD] alone again. *)
Example demo_scenario :
  trace <$> do_actions tt copied (invoke tt copied idle 1)
    [ActBroadcast [100; 50; -50]; ActRemoveAll 10;
     ActBroadcast [100; 60; 10]; ActAddRaw 10 1;
     ActBroadcast [100; 70; 10]; ActRemove 3;
     ActBroadcast [100; 80; 10]] demo
  = Done [(TRawDelegateInstance 10 1 1, [100; 50; -50]);
          (TRawDelegateInstance 20 1 2, [100; 50; -50]);
          (TRawDelegateInstance 20 1 2, [100; 60; 10]);
          (TRawDelegateInstance 20 1 2, [100; 70; 10]);
          (TRawDelegateInstance 10 1 3, [100; 70; 10]);
          (TRawDelegateInstance 20 1 2, [100; 80; 10])].
Proof. reflexivity. Qed.

(** ** A movable argument

    The same two observers on a delegate of signature
    [void(std::vector<int>)]: each turn of the loop moves the parameter of
    [Broadcast] into the parameter of [ExecuteIfBound], so [Logger] gets the
    vector and [HUD] an empty one. *)
Example Broadcast_vector_argument :
  trace <$> Broadcast tt moved_vector (invoke tt moved_vector idle 1) [1; 2; 3] demo
  = Done [(TRawDelegateInstance 10 1 1, [1; 2; 3]);
          (TRawDelegateInstance 20 1 2, [])].
Proof. reflexivity. Qed.

(** * Further properties on the sample programs *)


Lemma Broadcast_calls_only_safe_demo :
  ∃ w', Broadcast tt copied (invoke tt copied killer 1) [100; 50; -50] static_then_weak = Done w' ∧
    destroyed static_then_weak ⊆ destroyed w' ∧
    ∃ evs, trace w' = trace static_then_weak ++ evs ∧
      ∀ i args0, (i, args0) ∈ evs → IsSafeToExecute static_then_weak i = true.
Proof.
  eexists. split; [reflexivity|].
  exact (Broadcast_calls_only_safe DemoArgs unit tt copied killer 1 [100; 50; -50]
           static_then_weak _ eq_refl).
Defined.


Lemma recruiter_never_removes c args0 (w0 : World DemoArgs) :
  Forall (λ a, removes a = false ∧ draws_elsewhere a = false)
         (recruiter c args0 w0).1.
Proof. unfold recruiter. repeat case_match; by repeat constructor. Defined.

Lemma recruiter_world_reachable : reachable tt copied recruiter (AddStatic 1 start).2.
Proof.
  exists start, 0%nat, [ActAddStatic 1]. split; [by repeat split | reflexivity].
Defined.


Lemma killer_never_registers_or_removes c args0 (w0 : World DemoArgs) :
  Forall (λ a, removes a = false ∧ adds a = false) (killer c args0 w0).1.
Proof. unfold killer. repeat case_match; by repeat constructor. Defined.

Lemma Broadcast_evicts_only_unbound_demo :
  ∃ w', Broadcast tt copied (invoke tt copied killer 1) [100; 50; -50] static_then_weak = Done w' ∧
    Entries w' = bound_entries w' (Entries static_then_weak).
Proof.
  eexists. split; [reflexivity|].
  exact (Broadcast_evicts_only_unbound DemoArgs unit tt copied killer 1
           [100; 50; -50] static_then_weak _
           killer_never_registers_or_removes eq_refl).
Defined.

Lemma Entries_ordered_by_handle_demo :
  StronglySorted Z.lt (handles demo) ∧
  ∀ E, E ∈ Entries demo →
    IsValid (Handle E) = true ∧
    ∃ i, Delegate E = Some i ∧ Instance_GetHandle i = Handle E.
Proof.
  exact (Entries_ordered_by_handle DemoArgs unit tt copied idle demo demo_reachable
           ltac:(done)).
Defined.

Lemma Add_then_Remove_demo :
  Entries (Remove (Add (ToRaw 10 2) demo).1 (Add (ToRaw 10 2) demo).2)
  = Entries demo.
Proof.
  exact (Add_then_Remove DemoArgs unit tt copied idle (ToRaw 10 2) demo demo_reachable
           ltac:(done)).
Defined.

Lemma Broadcast_unbounded_nesting_demo :
  Broadcast tt copied (invoke tt copied looper 7) [100; 50; -50] (AddStatic 1 start).2
  = OutOfFuel.
Proof.
  apply (Broadcast_unbounded_nesting DemoArgs unit tt copied looper 7 [100; 50; -50]
           (AddStatic 1 start).2
           (mkEntry 1 (Some (TStaticDelegateInstance 1 1)) 0) []
           (TStaticDelegateInstance 1 1)); try done.
  intros w0. by exists [].
Defined.

(** * The subject of the demo *)

Section EntityProperties.

Variable handler : Callee → DemoArgs → World DemoArgs → list (Action DemoArgs) * unit.

Lemma int_add_in_range (a b : Z) :
  INT_MIN ≤ a + b ≤ INT_MAX → int_add a b = a + b.
Proof.
  unfold int_add, INT_MIN, INT_MAX, UINT_MODULUS. intros Hrange.
  rewrite Z.mod_small by lia. lia.
Qed.


(** With every observer safe and quiet, and the sum of [Health] and
    [InDelta] an [int], [ApplyHealthChanged] returns and has notified each
    observer once, in the order of registration, with [MaxHealth], the new
    [Health] and the requested delta. *)
Theorem ApplyHealthChanged_notifies fuel (InDelta : Z) (e : Entity) :
  INT_MIN ≤ Health e + InDelta ≤ INT_MAX →
  (∀ E, E ∈ Entries (OnHealthChanged e) →
        TDelegate_IsBound (OnHealthChanged e) (Delegate E) = true) →
  (∀ E i args w0, E ∈ Entries (OnHealthChanged e) → Delegate E = Some i →
     Forall quiet (handler (callee_of i) args w0).1) →
  ∃ e' evs,
    ApplyHealthChanged (invoke tt copied handler (S fuel)) InDelta e = Done e' ∧
    Health e' = clamp (Health e + InDelta) 0 (MaxHealth e) ∧
    trace (OnHealthChanged e') = trace (OnHealthChanged e) ++ evs ∧
    one_call_each [MaxHealth e; Health e'; InDelta]
      (Entries (OnHealthChanged e)) evs.
Proof.
  intros Hrange Hbound Hquiet. unfold ApplyHealthChanged. cbv zeta.
  rewrite int_add_in_range by done.
  set (args := [MaxHealth e; clamp (Health e + InDelta) 0 (MaxHealth e); InDelta]).
  destruct (dispatch_quiet DemoArgs unit tt copied handler fuel
              (Entries (OnHealthChanged e)) args (OnHealthChanged e) Hbound Hquiet)
    as (w1 & evs & Hrun & Ht & Hone & _).
  apply one_call_per_turn_same in Hone; [|done].
  unfold Broadcast. destruct (Entries (OnHealthChanged e)) as [|E rest] eqn:HE.
  - eexists _, []. cbn. rewrite app_nil_r. repeat split. constructor.
  - rewrite Hrun. cbn. by eexists _, evs.
Qed.

End EntityProperties.


Lemma ApplyHealthChanged_notifies_demo :
  ∃ e' evs,
    ApplyHealthChanged (invoke tt copied idle 1) (-50) (new_Entity demo) = Done e' ∧
    Health e' = clamp (100 + -50) 0 100 ∧
    trace (OnHealthChanged e') = trace demo ++ evs ∧
    one_call_each [100; Health e'; -50] (Entries demo) evs.
Proof.
  apply (ApplyHealthChanged_notifies idle 0 (-50) (new_Entity demo)).
  - done.
  - intros E HE. by each_entry HE.
  - intros E i args w0 _ _. constructor.
Defined.

(** What [main] prints: both observers twice, [HUD] alone once [Logger] is
    unregistered, [HUD] and then [Logger] once it has registered again, and
    [HUD] alone after the [Remove]; the health goes from [100] to [50] and
    then up by [10] each time. *)
Example main_output :
  (λ Player, (Health Player, trace (OnHealthChanged Player))) <$> main (invoke tt copied idle 1)
  = Done (90,
          [(TRawDelegateInstance 10 1 1, [100; 50; -50]);
           (TRawDelegateInstance 20 1 2, [100; 50; -50]);
           (TRawDelegateInstance 10 1 1, [100; 60; 10]);
           (TRawDelegateInstance 20 1 2, [100; 60; 10]);
           (TRawDelegateInstance 20 1 2, [100; 70; 10]);
           (TRawDelegateInstance 20 1 2, [100; 80; 10]);
           (TRawDelegateInstance 10 1 3, [100; 80; 10]);
           (TRawDelegateInstance 20 1 2, [100; 90; 10])]).
Proof. reflexivity. Qed.

Lemma Broadcast_all_unbound_demo :
  let w := destroy 5 (AddWeak 5 1 start).2 in
  Broadcast tt copied (invoke tt copied idle 0) [100; 50; -50] w = Done (Clear w).
Proof.
  cbv zeta.
  apply (Broadcast_all_unbound DemoArgs unit tt copied (invoke tt copied idle 0) [100; 50; -50]
           (destroy 5 (AddWeak 5 1 start).2)).
  intros E HE. by each_entry HE.
Defined.


Lemma Add_returns_new_handle_demo :
  (Add (ToLambda 4) demo).1 = 3 ∧
  generated (Add (ToLambda 4) demo).2 = 3 ∧
  ∀ h, h ∈ handles demo → h < (Add (ToLambda 4) demo).1.
Proof.
  exact (Add_returns_new_handle DemoArgs unit tt copied idle (ToLambda 4) demo
           demo_reachable ltac:(done)).
Defined.
